(** * dvc/commands/dag.py: the graph pipeline behind the dag command

    A shallow embedding of [src/dvc/commands/dag.py]: target collection,
    relabelling, scope filtering, group collapse and the dot and flowchart
    renderers, together with the part of the networkx [DiGraph] interface
    these functions call. *)

From Stdlib Require Import Ascii String DecimalString DecimalNat.
From stdpp Require Import base tactics option list strings gmap relations sorting.

Local Open Scope string_scope.
Local Open Scope list_scope.
Local Open Scope nat_scope.

#[local] Set Warnings "-clear-no-such-hyp".

(** ** Python exceptions and the result of a call *)

Inductive exn : Type :=
  | UnboundLocalError
  | IndexError
  | KeyError
  | NetworkXError.

Inductive result (A : Type) : Type :=
  | Ok (a : A)
  | Raise (e : exn).
Arguments Ok {A} a.
Arguments Raise {A} e.

#[global] Instance result_ret : MRet result := λ A a, Ok a.
#[global] Instance result_bind : MBind result := λ A B f m,
  match m with
  | Ok a => f a
  | Raise e => Raise e
  end.

(** A [for] loop whose body may raise: the state is threaded from left to
    right and the first exception ends the loop. *)
Fixpoint for_each {A S : Type} (body : S → A → result S) (l : list A) (s : S)
    : result S :=
  match l with
  | [] => Ok s
  | x :: l' => s' ← body s x; for_each body l' s'
  end.

(** [l[i]] on a Python list. *)
Definition py_index {A : Type} (l : list A) (i : nat) : result A :=
  match l !! i with
  | Some x => Ok x
  | None => Raise IndexError
  end.

(** ** Python strings *)

Definition dquote : ascii := "034"%char.
Definition at_sign : ascii := "@"%char.

(** [c in s] for a one-character [c]. *)
Fixpoint char_in (c : ascii) (s : string) : bool :=
  match s with
  | EmptyString => false
  | String c' s' => if decide (c' = c) then true else char_in c s'
  end.

(** [s.split(sep)] for a one-character separator. *)
Fixpoint split (sep : ascii) (s : string) : list string :=
  match s with
  | EmptyString => [EmptyString]
  | String c s' =>
      if decide (c = sep) then EmptyString :: split sep s'
      else match split sep s' with
           | [] => [String c EmptyString]
           | w :: ws => String c w :: ws
           end
  end.

(** [s[0]] and [s[-1]]. *)
Definition str_first (s : string) : result ascii :=
  match s with
  | EmptyString => Raise IndexError
  | String c _ => Ok c
  end.

Fixpoint str_last (s : string) : result ascii :=
  match s with
  | EmptyString => Raise IndexError
  | String c EmptyString => Ok c
  | String _ s' => str_last s'
  end.

(** ** The networkx [DiGraph] interface used by the module

    Nodes are kept in insertion order (networkx stores them in a dict), the
    edge list holds every directed edge once. *)

Record DiGraph (A : Type) : Type := mkDiGraph {
  nodes : list A;
  edges : list (A * A)
}.
Arguments mkDiGraph {A} nodes edges.
Arguments nodes {A} _.
Arguments edges {A} _.

(** Every edge joins two nodes of the graph; networkx maintains this by
    construction ([add_edge] adds missing endpoints, [remove_node] drops the
    incident edges). *)
Definition wf_graph {A : Type} (g : DiGraph A) : Prop :=
  Forall (λ e, e.1 ∈ nodes g ∧ e.2 ∈ nodes g) (edges g).

#[global] Instance wf_graph_dec {A : Type} `{EqDecision A} (g : DiGraph A) :
  Decision (wf_graph g).
Proof. unfold wf_graph. apply _. Defined.

Section digraph.
Context {A : Type} `{EqDecision A}.

Definition empty_graph : DiGraph A := mkDiGraph [] [].

Definition add_node (g : DiGraph A) (n : A) : DiGraph A :=
  if decide (n ∈ nodes g) then g else mkDiGraph (nodes g ++ [n]) (edges g).

Definition add_edge (g : DiGraph A) (e : A * A) : DiGraph A :=
  let g1 := add_node (add_node g e.1) e.2 in
  if decide (e ∈ edges g1) then g1 else mkDiGraph (nodes g1) (edges g1 ++ [e]).

Definition add_nodes_from (g : DiGraph A) (ns : list A) : DiGraph A :=
  foldl add_node g ns.

Definition add_edges_from (g : DiGraph A) (es : list (A * A)) : DiGraph A :=
  foldl add_edge g es.

(** [remove_nodes_from] skips nodes that are not in the graph; a removed
    node takes its incident edges with it. *)
Definition remove_node (g : DiGraph A) (n : A) : DiGraph A :=
  mkDiGraph (filter (λ m, m ≠ n) (nodes g))
            (filter (λ e, e.1 ≠ n ∧ e.2 ≠ n) (edges g)).

Definition remove_nodes_from (g : DiGraph A) (ns : list A) : DiGraph A :=
  foldl remove_node g ns.

(** [remove_edges_from] skips edges that are not in the graph. *)
Definition remove_edge (g : DiGraph A) (e : A * A) : DiGraph A :=
  mkDiGraph (nodes g) (filter (λ e', e' ≠ e) (edges g)).

Definition remove_edges_from (g : DiGraph A) (es : list (A * A)) : DiGraph A :=
  foldl remove_edge g es.

Definition copy (g : DiGraph A) : DiGraph A := g.

Definition reverse (g : DiGraph A) : DiGraph A :=
  mkDiGraph (nodes g) ((λ e, (e.2, e.1)) <$> edges g).

(** [G.out_edges(n)] and [G.in_edges(n)]. *)
Definition out_edges (g : DiGraph A) (n : A) : list (A * A) :=
  filter (λ e, e.1 = n) (edges g).
Definition in_edges (g : DiGraph A) (n : A) : list (A * A) :=
  filter (λ e, e.2 = n) (edges g).
End digraph.

(** ** Group collapse *)

Definition _collapse_get_nodes (graph : DiGraph string)
    : result (gset string * gset string) :=
  let new_nodes : gset string := ∅ in
  let nodes_to_remove : gset string := ∅ in
  (* for _node in list(graph.nodes): the loop variable stays bound to the
     last node after the loop, and is unbound when the list is empty *)
  let '(_node, nodes_to_remove) :=
    foldl (λ '(_, nodes_to_remove) _node,
             if negb (char_in at_sign _node) then (Some _node, nodes_to_remove)
             else (Some _node, nodes_to_remove ∪ {[_node]}))
          (None, nodes_to_remove) (nodes graph) in
  match _node with
  | None => Raise UnboundLocalError
  | Some _node =>
      key ← py_index (split at_sign _node) 0;
      Ok (new_nodes ∪ {[key]}, nodes_to_remove)
  end.

Definition _collapse_get_edges (graph : DiGraph string)
    : result (gset (string * string) * gset (string * string)) :=
  for_each (λ '(new_edges, edges_to_remove) '(_e1, _e2),
      let _replace := false in
      let _new_e1 := _e1 in
      let _new_e2 := _e2 in
      '(_new_e1, _replace) ←
        (if char_in at_sign _e1
         then k ← py_index (split at_sign _e1) 0; Ok (k, true)
         else Ok (_new_e1, _replace));
      '(_new_e2, _replace) ←
        (if char_in at_sign _e2
         then k ← py_index (split at_sign _e2) 0; Ok (k, true)
         else Ok (_new_e2, _replace));
      if _replace : bool
      then Ok (new_edges ∪ {[(_new_e1, _new_e2)]},
               edges_to_remove ∪ {[(_e1, _e2)]})
      else Ok (new_edges, edges_to_remove))
    (edges graph) (∅, ∅).

(** The graph is changed in place and returned; the value computed here is
    the state of that one object after the call.  The four Python sets are
    finite sets; the order in which [elements] lists them stands for the
    unspecified iteration order of a set, and the statements below speak of
    membership only. *)
Definition _collapse_graph (graph : DiGraph string) : result (DiGraph string) :=
  '(new_nodes, nodes_to_remove) ← _collapse_get_nodes graph;
  '(new_edges, edges_to_remove) ← _collapse_get_edges graph;
  let graph := remove_edges_from graph (elements edges_to_remove) in
  let graph := add_nodes_from graph (elements new_nodes) in
  let graph := add_edges_from graph (elements new_edges) in
  let graph := remove_nodes_from graph (elements nodes_to_remove) in
  Ok graph.

(** ** Reachability, as networkx computes it

    [nx.descendants] and [nx.node_connected_component] return the set of
    nodes a breadth-first search reaches.  The search is written here as the
    iteration of one expansion step; [length E + 1] rounds are enough, since
    every round that changes the set adds an endpoint of an edge. *)

Section reach.
Context {A : Type} `{Countable A}.

Definition expand (E : list (A * A)) (X : gset A) : gset A :=
  X ∪ list_to_set ((filter (λ e, e.1 ∈ X) E).*2).

Fixpoint closure (E : list (A * A)) (fuel : nat) (X : gset A) : gset A :=
  match fuel with
  | O => X
  | S k => closure E k (expand E X)
  end.

Definition reach (E : list (A * A)) (s : A) : gset A :=
  closure E (S (length E)) {[s]}.

(** [nx.descendants(G, source)]: every node reachable from [source],
    [source] itself left out. *)
Definition descendants (G : DiGraph A) (source : A) : result (gset A) :=
  if decide (source ∈ nodes G)
  then Ok (reach (edges G) source ∖ {[source]})
  else Raise NetworkXError.

(** [G.to_undirected()]: the same nodes, every edge usable both ways.  The
    undirected graph is kept as its symmetric adjacency. *)
Definition to_undirected (G : DiGraph A) : DiGraph A :=
  mkDiGraph (nodes G) (edges G ++ ((λ e, (e.2, e.1)) <$> edges G)).

(** [nx.node_connected_component(G, n)] on an undirected graph. *)
Definition node_connected_component (G : DiGraph A) (n : A)
    : result (gset A) :=
  if decide (n ∈ nodes G) then Ok (reach (edges G) n) else Raise KeyError.

(** [nx.connected_components]: the components in the order in which the
    node iteration first meets them. *)
Fixpoint components_from (E : list (A * A)) (todo : list A) (seen : gset A)
    : list (gset A) :=
  match todo with
  | [] => []
  | v :: todo' =>
      if decide (v ∈ seen) then components_from E todo' seen
      else let c := reach E v in c :: components_from E todo' (seen ∪ c)
  end.

Definition weakly_connected_components (G : DiGraph A) : list (gset A) :=
  components_from (edges (to_undirected G)) (nodes G) ∅.

(** [G.subgraph(c).copy()] *)
Definition subgraph (G : DiGraph A) (c : gset A) : DiGraph A :=
  mkDiGraph (filter (λ n, n ∈ c) (nodes G))
            (filter (λ e, e.1 ∈ c ∧ e.2 ∈ c) (edges G)).
End reach.

(** Modelled from the spec: [get_pipelines] of [dvc.repo.graph], which is not
    part of this module.  "Pipeline decomposition: given a graph, returns its
    weakly-connected components as independent sub-graphs (pipelines), each
    with its own node/edge set." *)
Definition get_pipelines (graph : DiGraph string) : list (DiGraph string) :=
  subgraph graph <$> weakly_connected_components graph.

(** ** Relabelling *)

Section relabel.
Context {A B : Type} `{EqDecision B}.

(** [nx.relabel_nodes(G, f, copy=True)]: a new graph is built from the
    renamed nodes and the renamed edges. *)
Definition relabel_nodes_copy (G : DiGraph A) (mapping : A → B) : DiGraph B :=
  let H := add_nodes_from empty_graph (mapping <$> nodes G) in
  add_edges_from H ((λ e, (mapping e.1, mapping e.2)) <$> edges G).
End relabel.

Section relabel_inplace.
Context {A : Type} `{EqDecision A}.

(** One round of the in-place loop of networkx for the node [old]; a
    label that is no longer in the graph is skipped. *)
Definition relabel_step (G : DiGraph A) (old new : A) : DiGraph A :=
  if decide (old ∈ nodes G) then
    let G := add_node G new in
    if decide (new = old) then G
    else
      let new_edges :=
        ((λ e, (new, if decide (old = e.2) then new else e.2))
           <$> out_edges G old)
        ++ ((λ e, (if decide (old = e.1) then new else e.1, new))
              <$> in_edges G old) in
      let G := remove_node G old in
      add_edges_from G new_edges
  else G.

(** [nx.relabel_nodes(G, f, copy=False)]: the mapping [{n: f(n) for n in G}]
    is built first (so an exception of [f] leaves [G] untouched), then the
    nodes are renamed one after the other in [G] itself.  networkx visits
    them in node order, or in an order that renames a label before it is
    reused when old and new labels overlap; for a mapping whose results
    are fixed points, as [_quote_label] is, the order does not change the
    node and edge sets obtained. *)
Definition relabel_nodes_inplace (G : DiGraph A) (mapping : A → result A)
    : result (DiGraph A) :=
  m ← for_each (λ m n, new ← mapping n; Ok (m ++ [(n, new)])) (nodes G) [];
  Ok (foldl (λ G '(old, new), relabel_step G old new) G m).
End relabel_inplace.

(** ** Renderers *)

Definition str_of_ascii (c : ascii) : string := String c EmptyString.
Definition nl : string := str_of_ascii "010"%char.
Definition tab : string := str_of_ascii "009"%char.
Definition dq : string := str_of_ascii dquote.

(** [str(n)] for a natural number. *)
Definition str_of_nat (n : nat) : string :=
  NilEmpty.string_of_uint (Nat.to_uint n).

Definition _quote_label (node : string) : result string :=
  let label := node in
  first ← str_first label;
  if decide (first ≠ dquote) then
    last ← str_last label;
    if decide (last ≠ dquote) then Ok (dq +:+ label +:+ dq) else Ok label
  else Ok label.

(** [write_dot] of networkx is an external writer: it is a parameter of the
    renderer.  The first component of the result is the state of the
    caller's graph object after the call. *)
Definition _show_dot (write_dot : DiGraph string → string)
    (graph : DiGraph string) : DiGraph string * result string :=
  match relabel_nodes_inplace graph _quote_label with
  | Raise e => (graph, Raise e)
  | Ok graph => (graph, Ok (write_dot (reverse graph)))
  end.

(** Tuples of strings compare lexicographically. *)
Definition pair_le (p q : string * string) : Prop :=
  String.ltb p.1 q.1 ∨ (p.1 = q.1 ∧ String.le p.2 q.2).

#[global] Instance pair_le_dec : RelDecision pair_le.
Proof. intros p q. unfold pair_le. apply _. Defined.

(** [node_ids[k]] *)
Definition dict_get (d : gmap string string) (k : string) : result string :=
  match d !! k with
  | Some v => Ok v
  | None => Raise KeyError
  end.

Definition node_line (node_id node : string) : string :=
  nl +:+ tab +:+ node_id +:+ "[" +:+ dq +:+ node +:+ dq +:+ "]".

Definition arrow_line (src dst : string) : string :=
  nl +:+ tab +:+ src +:+ "-->" +:+ dst.

(** The loop over the sorted nodes of one pipeline: a declaration line per
    node, the counter and the identifiers threaded through. *)
Definition mermaid_nodes (nodes : list string)
    (st : string * nat * gmap string string) : string * nat * gmap string string :=
  foldl (λ '(graph, total_nodes, node_ids) node,
           let total_nodes := total_nodes + 1 in
           let node_id := "node" +:+ str_of_nat total_nodes in
           (graph +:+ node_line node_id node, total_nodes,
            <[node := node_id]> node_ids))
        st nodes.

(** The loop over the sorted edges of one pipeline: an arrow line per
    edge. *)
Definition mermaid_edges (node_ids : gmap string string)
    (edges : list (string * string)) (graph : string) : result string :=
  for_each (λ graph '(a, b),
      src ← dict_get node_ids a;
      dst ← dict_get node_ids b;
      Ok (graph +:+ arrow_line src dst))
    edges graph.

(** The body of the loop over the pipelines. *)
Definition mermaid_pipeline (st : string * nat) (pipeline : DiGraph string)
    : result (string * nat) :=
  let '(graph, total_nodes) := st in
  let node_ids : gmap string string := ∅ in
  let nodes := merge_sort String.le (nodes pipeline) in
  let '(graph, total_nodes, node_ids) :=
    mermaid_nodes nodes (graph, total_nodes, node_ids) in
  let edges := merge_sort pair_le ((λ '(b, a), (a, b)) <$> edges pipeline) in
  graph ← mermaid_edges node_ids edges graph;
  Ok (graph, total_nodes).

Definition _show_mermaid (graph : DiGraph string) (markdown : bool)
    : result string :=
  let pipelines := get_pipelines graph in
  let graph := "flowchart TD" in
  let total_nodes := 0 in
  '(graph, total_nodes) ← for_each mermaid_pipeline pipelines (graph, total_nodes);
  if markdown then Ok ("```mermaid" +:+ nl +:+ graph +:+ nl +:+ "```")
  else Ok graph.

(** ** Scope filter *)

Definition _filter (graph : DiGraph string) (targets : list string) (full : bool)
    : result (DiGraph string) :=
  match targets with
  | [] => Ok graph
  | _ =>
      let new_graph := copy graph in
      new_graph ←
        (if negb full then
           descendants ←
             for_each (λ acc target,
                 d ← descendants graph target;
                 Ok ((acc ∪ d) ∪ {[target]}))
               targets (∅ : gset string);
           Ok (remove_nodes_from new_graph
                 (elements (list_to_set (nodes graph) ∖ descendants)))
         else Ok new_graph);
      let undirected := to_undirected new_graph in
      connected ←
        for_each (λ acc target,
            c ← node_connected_component undirected target;
            Ok (acc ∪ c))
          targets (∅ : gset string);
      Ok (remove_nodes_from new_graph
            (elements (list_to_set (nodes new_graph) ∖ connected)))
  end.

(** ** The repository objects the module reads *)

(** An output; [out_str] is [str(out)]. *)
Record Output : Type := mkOutput { out_str : string }.

Record Stage : Type := mkStage {
  stage_addressing : string;
  stage_outs : list Output
}.

(** A node of the index graphs is a stage or some other object with a
    string form. *)
Inductive Node : Type :=
  | NodeStage (stage : Stage)
  | NodeOther (repr : string).

#[global] Instance Output_eq_dec : EqDecision Output.
Proof. solve_decision. Defined.
#[global] Instance Stage_eq_dec : EqDecision Stage.
Proof. solve_decision. Defined.
#[global] Instance Node_eq_dec : EqDecision Node.
Proof. solve_decision. Defined.

(** The prefix tree of outputs, as the list of its items: the key is the
    tuple of path parts. *)
Definition Trie : Type := list (list string * Output).

(** [trie.itervalues(prefix=p)]: the values under the prefix; pygtrie raises
    KeyError when nothing is stored under it. *)
Definition itervalues (trie : Trie) (p : list string) : result (list Output) :=
  match filter (λ kv, p `prefix_of` kv.1) trie with
  | [] => Raise KeyError
  | items => Ok (items.*2)
  end.

Record Index : Type := mkIndex {
  index_graph : DiGraph Node;
  index_outs_graph : DiGraph Node;
  index_outs_trie : Trie
}.

Record Repo : Type := mkRepo {
  (** [repo.stage.collect_granular(target)] *)
  stage_collect_granular : string → result (list (Stage * option string));
  repo_index : Index;
  (** [repo.fs.parts(path)] *)
  fs_parts : string → list string
}.

(** [list(s)] for a string: its characters, each a string of length one. *)
Fixpoint chars (s : string) : list string :=
  match s with
  | EmptyString => []
  | String c s' => str_of_ascii c :: chars s'
  end.

Definition _collect_targets (repo : Repo) (target : option string) (outs : bool)
    : result (list string) :=
  match target with
  | None | Some EmptyString => Ok []
  | Some target =>
      pairs ← stage_collect_granular repo target;
      if negb outs then Ok ((λ '(stage, _), stage_addressing stage) <$> pairs)
      else
        let targets := [] in
        let outs_trie := index_outs_trie (repo_index repo) in
        for_each (λ targets '(stage, path),
            match path with
            | None | Some EmptyString =>
                Ok (targets ++ (out_str <$> stage_outs stage))
            | Some path =>
                found ← itervalues outs_trie (fs_parts repo path);
                (* targets.extend(str(out)) for each value found *)
                Ok (foldl (λ targets out, targets ++ chars (out_str out))
                          targets found)
            end)
          pairs targets
  end.

Definition _relabel (node : Node) : string :=
  match node with
  | NodeStage stage => stage_addressing stage
  | NodeOther repr => repr
  end.

Definition _transform (index : Index) (outs : bool) : DiGraph string :=
  let graph := if outs then index_outs_graph index else index_graph index in
  relabel_nodes_copy graph _relabel.

Definition _build (repo : Repo) (target : option string)
    (full outs collapse : bool) : result (DiGraph string) :=
  targets ← _collect_targets repo target outs;
  let graph := _transform (repo_index repo) outs in
  filtered_graph ← _filter graph targets full;
  if collapse then _collapse_graph graph
  else Ok filtered_graph.

(** ** The ASCII renderer and the command *)

(** [sep.join(l)] *)
Fixpoint join (sep : string) (l : list string) : string :=
  match l with
  | [] => ""
  | [x] => x
  | x :: l' => x +:+ sep +:+ join sep l'
  end.

(** [draw] of [dvc.dagascii] is the external line-drawing routine: it is a
    parameter of the renderer. *)
Definition _show_ascii (draw : list string → list (string * string) → string)
    (graph : DiGraph string) : string :=
  let pipelines := get_pipelines graph in
  let ret :=
    foldl (λ ret pipeline, ret ++ [draw (nodes pipeline) (edges pipeline)])
          [] pipelines in
  join nl ret.

(** The parsed arguments of the command. *)
Record Args : Type := mkArgs {
  args_target : option string;
  args_full : bool;
  args_outs : bool;
  args_dot : bool;
  args_mermaid : bool;
  args_markdown : bool
}.

(** What [ui.write] received, and whether the pager was open. *)
Inductive written : Type :=
  | Plain (text : string)
  | Paged (text : string).

(** [CmdDAG.run]: the text written and the value returned. *)
Definition run (draw : list string → list (string * string) → string)
    (write_dot : DiGraph string → string) (repo : Repo) (args : Args)
    : result (written * nat) :=
  graph ← _build repo (args_target args) (args_full args) (args_outs args) false;
  out ←
    (if args_dot args then
       text ← (_show_dot write_dot graph).2; Ok (Plain text)
     else if args_mermaid args || args_markdown args then
       text ← _show_mermaid graph (args_markdown args); Ok (Plain text)
     else Ok (Paged (_show_ascii draw graph)));
  Ok (out, 0).

(** ** Vocabulary of the statements

    Group keys *)

(** The group key of a label: the part before the first separator, the
    whole label when it has none. *)
Definition group_key (s : string) : string :=
  default s (head (split at_sign s)).

Definition has_at (s : string) : Prop := char_in at_sign s.

(** An edge that the collapse rewrites, and what it becomes. *)
Definition touched (e : string * string) : Prop := has_at e.1 ∨ has_at e.2.
Definition collapsed (e : string * string) : string * string :=
  (group_key e.1, group_key e.2).

(** The label [_quote_label] returns, the label itself where it raises. *)
Definition quoted (s : string) : string :=
  match _quote_label s with
  | Ok q => q
  | Raise _ => s
  end.

(** Renaming one label. *)
Definition rename1 {A : Type} `{EqDecision A} (old new x : A) : A :=
  if decide (x = old) then new else x.

(** Every label has at least one character. *)
Definition labelled (g : DiGraph string) : Prop :=
  Forall (λ n, n ≠ "") (nodes g).

#[global] Instance labelled_dec g : Decision (labelled g).
Proof. unfold labelled. apply _. Defined.

(** The edge relation of an edge list: [edge_rel E u v] when [E] holds
    the edge from [u] to [v].  Paths are its closures: [rtc] for a path of
    any length, [tc] for a path with at least one edge, [rtsc] for a path
    that may take edges backwards. *)
Definition edge_rel {A : Type} (E : list (A * A)) : relation A :=
  λ u v, (u, v) ∈ E.

(** A text contains a line when the line occurs in it. *)
Definition contains (text line : string) : Prop :=
  ∃ pre post, text = pre +:+ line +:+ post.

(** A stretch of text made of whole lines: it is empty or begins with a
    newline. *)
Definition ends_line (post : string) : Prop :=
  post = "" ∨ ∃ rest, post = nl +:+ rest.

(** A whole line of the text: [line], which begins with its newline, occurs
    in [text] and is followed by the end of the text or by the newline of
    the next line. *)
Definition has_line (text line : string) : Prop :=
  ∃ pre post, text = pre +:+ line +:+ post ∧ ends_line post.

(** [has_line], decided by scanning the text: [strip_prefix line text] is
    what follows [line] when [text] begins with it. *)
Fixpoint strip_prefix (line text : string) : option string :=
  match line with
  | EmptyString => Some text
  | String c line' =>
      match text with
      | EmptyString => None
      | String c' text' =>
          if decide (c = c') then strip_prefix line' text' else None
      end
  end.

Definition ends_lineb (post : string) : bool :=
  match post with
  | EmptyString => true
  | String c _ => bool_decide (c = "010"%char)
  end.

Fixpoint has_lineb (text line : string) : bool :=
  match strip_prefix line text with
  | Some post => ends_lineb post
  | None => false
  end
  || match text with
     | EmptyString => false
     | String _ text' => has_lineb text' line
     end.

(** The identifier of the node declared at position [k], counting from 0:
    [node1], [node2], ... *)
Definition node_id (k : nat) : string := "node" +:+ str_of_nat (S k).

(** The order in which the flowchart declares the nodes: pipeline after
    pipeline, the nodes of each pipeline sorted. *)
Definition mermaid_order (graph : DiGraph string) : list string :=
  concat ((λ pipeline, merge_sort String.le (nodes pipeline))
            <$> get_pipelines graph).

(** ** Sample repositories *)

Definition stage_prep : Stage := mkStage "prep" [mkOutput "data/clean.csv"].
Definition stage_train1 : Stage := mkStage "train@1" [mkOutput "models/1.pkl"].
Definition stage_train2 : Stage := mkStage "train@2" [mkOutput "models/2.pkl"].
Definition stage_eval : Stage := mkStage "eval" [mkOutput "metrics.json"].

(** Both trainings read the prepared data and the evaluation reads both
    models. *)
Definition sample_index : Index :=
  mkIndex
    (mkDiGraph
       [NodeStage stage_prep; NodeStage stage_train1; NodeStage stage_train2;
        NodeStage stage_eval]
       [(NodeStage stage_train1, NodeStage stage_prep);
        (NodeStage stage_train2, NodeStage stage_prep);
        (NodeStage stage_eval, NodeStage stage_train1);
        (NodeStage stage_eval, NodeStage stage_train2)])
    (mkDiGraph
       [NodeOther "data/clean.csv"; NodeOther "models/1.pkl";
        NodeOther "models/2.pkl"; NodeOther "metrics.json"]
       [(NodeOther "models/1.pkl", NodeOther "data/clean.csv");
        (NodeOther "models/2.pkl", NodeOther "data/clean.csv");
        (NodeOther "metrics.json", NodeOther "models/1.pkl");
        (NodeOther "metrics.json", NodeOther "models/2.pkl")])
    [(["data"; "clean.csv"], mkOutput "data/clean.csv");
     (["models"; "1.pkl"], mkOutput "models/1.pkl");
     (["models"; "2.pkl"], mkOutput "models/2.pkl");
     (["metrics.json"], mkOutput "metrics.json")].

(** The target [train@1] names a stage, the target [data] a directory of
    the stage [prep]. *)
Definition sample_repo : Repo :=
  mkRepo
    (λ target,
       if decide (target = "train@1") then Ok [(stage_train1, None)]
       else if decide (target = "data") then Ok [(stage_prep, Some "data")]
       else Raise KeyError)
    sample_index
    (λ path, [path]).

(** A star: [n10] depends on each of [n01] ... [n09]. *)
Definition star_graph : DiGraph string :=
  mkDiGraph
    ["n01"; "n02"; "n03"; "n04"; "n05"; "n06"; "n07"; "n08"; "n09"; "n10"]
    [("n10", "n01"); ("n10", "n02"); ("n10", "n03"); ("n10", "n04");
     ("n10", "n05"); ("n10", "n06"); ("n10", "n07"); ("n10", "n08");
     ("n10", "n09")].

(** ** Test values *)

Example collapse_merge :
  _collapse_graph (mkDiGraph ["build@1"; "build@2"; "other"]
                             [("build@1", "other"); ("build@2", "other")])
  = Ok (mkDiGraph ["other"; "build"] [("build", "other")]).
Proof. vm_compute. reflexivity. Qed.

Example filter_chain :
  _filter (mkDiGraph ["A"; "B"; "C"] [("A", "B"); ("B", "C")]) ["B"] false
  = Ok (mkDiGraph ["B"; "C"] [("B", "C")]).
Proof. vm_compute. reflexivity. Qed.

(** ** Membership after the graph updates *)

Section digraph_facts.
Context {A : Type} `{EqDecision A}.
Implicit Types (g : DiGraph A) (n : A) (e : A * A).

Lemma wf_src g u v : wf_graph g → (u, v) ∈ edges g → u ∈ nodes g.
Proof.
  unfold wf_graph. rewrite Forall_forall. intros Hwf He.
  by destruct (Hwf _ He).
Qed.

Lemma wf_dst g u v : wf_graph g → (u, v) ∈ edges g → v ∈ nodes g.
Proof.
  unfold wf_graph. rewrite Forall_forall. intros Hwf He.
  by destruct (Hwf _ He).
Qed.

Lemma elem_of_nodes_add_node g m n :
  n ∈ nodes (add_node g m) ↔ n ∈ nodes g ∨ n = m.
Proof.
  unfold add_node. case_decide; simpl.
  - split; [by left | by intros [?| ->]].
  - rewrite elem_of_app, list_elem_of_singleton. done.
Qed.

Lemma edges_add_node g m : edges (add_node g m) = edges g.
Proof. unfold add_node. by case_decide. Qed.

Lemma elem_of_nodes_add_nodes_from g ns n :
  n ∈ nodes (add_nodes_from g ns) ↔ n ∈ nodes g ∨ n ∈ ns.
Proof.
  unfold add_nodes_from. revert g.
  induction ns as [|m ns IH]; intros g; simpl.
  - rewrite elem_of_nil. tauto.
  - rewrite IH, elem_of_nodes_add_node, elem_of_cons. tauto.
Qed.

Lemma edges_add_nodes_from g ns : edges (add_nodes_from g ns) = edges g.
Proof.
  unfold add_nodes_from. revert g.
  induction ns as [|m ns IH]; intros g; simpl; [done|].
  by rewrite IH, edges_add_node.
Qed.

Lemma add_nodes_from_present g ns :
  (∀ n, n ∈ ns → n ∈ nodes g) → add_nodes_from g ns = g.
Proof.
  unfold add_nodes_from. revert g.
  induction ns as [|m ns IH]; intros g Hin; simpl; [done|].
  assert (add_node g m = g) as ->.
  { unfold add_node. rewrite decide_True; [done|]. apply Hin. left. }
  apply IH. intros n Hn. apply Hin. by right.
Qed.

Lemma elem_of_edges_add_edge g e' e :
  e ∈ edges (add_edge g e') ↔ e ∈ edges g ∨ e = e'.
Proof.
  unfold add_edge. case_decide as Hd; simpl;
    rewrite ?elem_of_app, ?list_elem_of_singleton, !edges_add_node in *.
  - split; [by left | by intros [?| ->]].
  - done.
Qed.

Lemma elem_of_nodes_add_edge g e' n :
  n ∈ nodes (add_edge g e') ↔ n ∈ nodes g ∨ n = e'.1 ∨ n = e'.2.
Proof.
  unfold add_edge. case_decide; simpl; rewrite !elem_of_nodes_add_node; tauto.
Qed.

Lemma elem_of_edges_add_edges_from g es e :
  e ∈ edges (add_edges_from g es) ↔ e ∈ edges g ∨ e ∈ es.
Proof.
  unfold add_edges_from. revert g.
  induction es as [|e' es IH]; intros g; simpl.
  - rewrite elem_of_nil. tauto.
  - rewrite IH, elem_of_edges_add_edge, elem_of_cons. tauto.
Qed.

Lemma elem_of_nodes_add_edges_from g es n :
  n ∈ nodes (add_edges_from g es)
  ↔ n ∈ nodes g ∨ ∃ e, e ∈ es ∧ (n = e.1 ∨ n = e.2).
Proof.
  unfold add_edges_from. revert g.
  induction es as [|e' es IH]; intros g; simpl.
  - split; [by left|]. intros [?|(e & He & _)]; [done|].
    by apply elem_of_nil in He.
  - rewrite IH, elem_of_nodes_add_edge. split.
    + intros [[?|?]|(e & He & ?)].
      * by left.
      * right. exists e'. split; [left|done].
      * right. exists e. split; [by right|done].
    + intros [?|(e & He & ?)]; [tauto|].
      apply elem_of_cons in He as [->|He]; [tauto|].
      right. by exists e.
Qed.

Lemma elem_of_nodes_remove_nodes_from g ns n :
  n ∈ nodes (remove_nodes_from g ns) ↔ n ∈ nodes g ∧ n ∉ ns.
Proof.
  unfold remove_nodes_from. revert g.
  induction ns as [|m ns IH]; intros g; simpl.
  - rewrite elem_of_nil. tauto.
  - rewrite IH. simpl. rewrite list_elem_of_filter, not_elem_of_cons. tauto.
Qed.

Lemma elem_of_edges_remove_nodes_from g ns e :
  e ∈ edges (remove_nodes_from g ns)
  ↔ e ∈ edges g ∧ (e.1 ∉ ns) ∧ (e.2 ∉ ns).
Proof.
  unfold remove_nodes_from. revert g.
  induction ns as [|m ns IH]; intros g; simpl.
  - rewrite !elem_of_nil. tauto.
  - rewrite IH. simpl. rewrite list_elem_of_filter, !not_elem_of_cons. tauto.
Qed.

Lemma nodes_remove_edges_from g es : nodes (remove_edges_from g es) = nodes g.
Proof.
  unfold remove_edges_from. revert g.
  induction es as [|e' es IH]; intros g; simpl; [done|]. by rewrite IH.
Qed.

Lemma elem_of_edges_remove_edges_from g es e :
  e ∈ edges (remove_edges_from g es) ↔ e ∈ edges g ∧ e ∉ es.
Proof.
  unfold remove_edges_from. revert g.
  induction es as [|e' es IH]; intros g; simpl.
  - rewrite elem_of_nil. tauto.
  - rewrite IH. simpl. rewrite list_elem_of_filter, not_elem_of_cons. tauto.
Qed.
End digraph_facts.

(** ** Facts on group keys *)

Lemma split_head sep s :
  ∃ k ws, split sep s = k :: ws ∧ char_in sep k = false.
Proof.
  induction s as [|c s (k & ws & Hs & Hk)]; simpl.
  - by exists EmptyString, [].
  - case_decide as Hc.
    + by exists EmptyString, (split sep s).
    + rewrite Hs. exists (String c k), ws. split; [done|].
      simpl. by rewrite decide_False.
Qed.

Lemma split_no_sep sep s : char_in sep s = false → split sep s = [s].
Proof.
  induction s as [|c s IH]; simpl; [done|].
  case_decide; [done|]. intros Hs. by rewrite (IH Hs).
Qed.

Lemma py_index_split s : py_index (split at_sign s) 0 = Ok (group_key s).
Proof.
  unfold group_key, py_index.
  destruct (split_head at_sign s) as (k & ws & -> & _). done.
Qed.

Lemma group_key_no_at s : ¬ has_at (group_key s).
Proof.
  unfold group_key, has_at.
  destruct (split_head at_sign s) as (k & ws & -> & Hk). simpl.
  rewrite Hk. intros [].
Qed.

Lemma group_key_id s : ¬ has_at s → group_key s = s.
Proof.
  unfold group_key, has_at. intros Hs.
  rewrite split_no_sep; [done|]. by destruct (char_in at_sign s).
Qed.

(** ** What the two collapse scans return *)

Lemma collapse_nodes_loop (l : list string) (o : option string) (acc : gset string) :
  foldl (λ '(_, nodes_to_remove) _node,
           if negb (char_in at_sign _node) then (Some _node, nodes_to_remove)
           else (Some _node, nodes_to_remove ∪ {[_node]}))
        (o, acc) l
  = (from_option Some o (last l), acc ∪ list_to_set (filter has_at l)).
Proof.
  revert o acc. induction l as [|x l IH]; intros o acc; simpl.
  - f_equal. by rewrite (right_id_L ∅ (∪)).
  - unfold has_at at 1. rewrite filter_cons.
    destruct (char_in at_sign x) eqn:Hx; simpl; rewrite IH; f_equal.
    + rewrite last_cons. by destruct (last l).
    + by rewrite (assoc_L (∪)).
    + rewrite last_cons. by destruct (last l).
Qed.

Lemma collapse_get_nodes_empty graph :
  nodes graph = [] → _collapse_get_nodes graph = Raise UnboundLocalError.
Proof. unfold _collapse_get_nodes. by intros ->. Qed.

Lemma collapse_get_nodes_last graph x :
  last (nodes graph) = Some x →
  _collapse_get_nodes graph
  = Ok ({[group_key x]}, list_to_set (filter has_at (nodes graph))).
Proof.
  intros Hx. unfold _collapse_get_nodes.
  rewrite collapse_nodes_loop, Hx. simpl. rewrite py_index_split. simpl.
  by rewrite !(left_id_L ∅ (∪)).
Qed.

Lemma collapse_edges_loop (l : list (string * string))
    (new_edges edges_to_remove : gset (string * string)) :
  for_each (λ '(new_edges, edges_to_remove) '(_e1, _e2),
      let _replace := false in
      let _new_e1 := _e1 in
      let _new_e2 := _e2 in
      '(_new_e1, _replace) ←
        (if char_in at_sign _e1
         then k ← py_index (split at_sign _e1) 0; Ok (k, true)
         else Ok (_new_e1, _replace));
      '(_new_e2, _replace) ←
        (if char_in at_sign _e2
         then k ← py_index (split at_sign _e2) 0; Ok (k, true)
         else Ok (_new_e2, _replace));
      if _replace : bool
      then Ok (new_edges ∪ {[(_new_e1, _new_e2)]},
               edges_to_remove ∪ {[(_e1, _e2)]})
      else Ok (new_edges, edges_to_remove))
    l (new_edges, edges_to_remove)
  = Ok (new_edges ∪ list_to_set (collapsed <$> filter touched l),
        edges_to_remove ∪ list_to_set (filter touched l)).
Proof.
  revert new_edges edges_to_remove.
  induction l as [|[e1 e2] l IH]; intros new_edges edges_to_remove.
  { simpl. by rewrite !(right_id_L ∅ (∪)). }
  rewrite filter_cons.
  case_decide as Ht; unfold touched, has_at in Ht; simpl in Ht;
    simpl; rewrite !py_index_split;
    destruct (char_in at_sign e1) eqn:H1, (char_in at_sign e2) eqn:H2;
    simpl in *; try tauto; rewrite IH; unfold collapsed at 2; simpl.
  - by rewrite !(assoc_L (∪)).
  - rewrite (group_key_id e2) by (unfold has_at; rewrite H2; intros []).
    by rewrite !(assoc_L (∪)).
  - rewrite (group_key_id e1) by (unfold has_at; rewrite H1; intros []).
    by rewrite !(assoc_L (∪)).
  - done.
Qed.

Lemma collapse_get_edges_spec graph :
  _collapse_get_edges graph
  = Ok (list_to_set (collapsed <$> filter touched (edges graph)),
        list_to_set (filter touched (edges graph))).
Proof.
  unfold _collapse_get_edges. rewrite collapse_edges_loop.
  by rewrite !(left_id_L ∅ (∪)).
Qed.

(** ** The collapsed graph *)

Lemma collapse_graph_last graph x :
  last (nodes graph) = Some x →
  _collapse_graph graph
  = Ok (remove_nodes_from
          (add_edges_from
             (add_nodes_from
                (remove_edges_from graph
                   (elements (list_to_set (filter touched (edges graph))
                                : gset (string * string))))
                (elements ({[group_key x]} : gset string)))
             (elements (list_to_set (collapsed <$> filter touched (edges graph))
                          : gset (string * string))))
          (elements (list_to_set (filter has_at (nodes graph)) : gset string))).
Proof.
  intros Hx. unfold _collapse_graph.
  rewrite (collapse_get_nodes_last _ _ Hx), collapse_get_edges_spec. done.
Qed.

Lemma last_is_Some {A} (l : list A) : l ≠ [] → ∃ x, last l = Some x ∧ x ∈ l.
Proof.
  intros Hl. destruct (last l) as [x|] eqn:Hx.
  - exists x. split; [done|]. apply last_Some in Hx as [l' ->].
    apply elem_of_app. right. left.
  - by apply last_None in Hx.
Qed.

(** Whenever the collapse returns, no label of the result holds the
    separator. *)
Lemma collapse_graph_no_at graph graph' n :
  _collapse_graph graph = Ok graph' → n ∈ nodes graph' → ¬ has_at n.
Proof.
  destruct (decide (nodes graph = [])) as [Hnil|Hne].
  { unfold _collapse_graph. by rewrite collapse_get_nodes_empty. }
  destruct (last_is_Some _ Hne) as (x & Hx & _).
  rewrite (collapse_graph_last _ _ Hx). intros [= <-].
  rewrite elem_of_nodes_remove_nodes_from, elem_of_nodes_add_edges_from,
    elem_of_nodes_add_nodes_from, nodes_remove_edges_from.
  setoid_rewrite elem_of_elements.
  intros [[[Hn| ->%elem_of_singleton]|(e & He & Hn)] Hrm].
  - intros Hat. apply Hrm. apply elem_of_list_to_set, list_elem_of_filter. done.
  - apply group_key_no_at.
  - apply elem_of_list_to_set, list_elem_of_fmap in He as (e0 & -> & _).
    destruct Hn as [-> | ->]; apply group_key_no_at.
Qed.

(** A graph with at least one node and no separator in any label is
    returned as it is. *)
Lemma collapse_graph_no_at_id graph :
  wf_graph graph → nodes graph ≠ [] →
  (∀ n, n ∈ nodes graph → ¬ has_at n) →
  _collapse_graph graph = Ok graph.
Proof.
  intros Hwf Hne Hno.
  pose proof (λ u v, wf_src graph u v Hwf) as Hsrc.
  pose proof (λ u v, wf_dst graph u v Hwf) as Hdst.
  destruct (last_is_Some _ Hne) as (x & Hx & Hin).
  rewrite (collapse_graph_last _ _ Hx).
  assert (filter touched (edges graph) = []) as ->.
  { apply elem_of_nil_inv.
    intros [u v] [[Hu|Hv] He]%list_elem_of_filter; simpl in *.
    - by apply (Hno u); [eapply Hsrc|].
    - by apply (Hno v); [eapply Hdst|]. }
  assert (filter has_at (nodes graph) = []) as ->.
  { apply elem_of_nil_inv. intros n [Hat Hn]%list_elem_of_filter.
    by apply (Hno n). }
  simpl. rewrite elements_empty, elements_singleton. simpl.
  rewrite ?elements_empty. simpl.
  rewrite (group_key_id x) by by apply Hno.
  unfold add_node. by rewrite decide_True.
Qed.

(** ** Claims on the group collapse *)

(** C10. When [_collapse_graph] is applied to a graph without nodes, the
    call does not return a graph: the scan of the nodes leaves the loop
    variable unbound, reading it raises, and the exception ends
    [_collapse_graph] as well. *)
Theorem collapse_graph_empty_raises (graph : DiGraph string) :
  nodes graph = [] →
  _collapse_get_nodes graph = Raise UnboundLocalError
  ∧ _collapse_graph graph = Raise UnboundLocalError.
Proof.
  intros Hnil. split.
  - by apply collapse_get_nodes_empty.
  - unfold _collapse_graph. by rewrite collapse_get_nodes_empty.
Qed.

Lemma collapse_graph_empty_raises_witness :
  nodes (empty_graph : DiGraph string) = []
  ∧ _collapse_get_nodes empty_graph = Raise UnboundLocalError
  ∧ _collapse_graph empty_graph = Raise UnboundLocalError.
Proof.
  split; [reflexivity|].
  apply (collapse_graph_empty_raises empty_graph). reflexivity.
Defined.

(** C5, at the empty graph.  The empty graph has no label with a separator,
    yet the collapse does not hand it back: the call raises.  (Every other
    graph without separators is returned as it is, see
    [collapse_graph_no_at_id].) *)
Theorem collapse_empty_graph_not_returned :
  (∀ n, n ∈ nodes (empty_graph : DiGraph string) → ¬ has_at n)
  ∧ _collapse_graph empty_graph ≠ Ok empty_graph.
Proof.
  split.
  - intros n Hn. by apply elem_of_nil in Hn.
  - vm_compute. discriminate.
Qed.

(** C2, at a graph with an isolated group member that is not the last
    node.  The member [a@1] is removed and no node [a] takes its place. *)
Theorem collapse_isolated_member_lost :
  _collapse_graph (mkDiGraph ["a@1"; "b"] []) = Ok (mkDiGraph ["b"] [])
  ∧ group_key "a@1" = "a"
  ∧ "a" ∉ nodes (mkDiGraph ["b"] [] : DiGraph string).
Proof.
  split; [vm_compute; reflexivity|]. split; [reflexivity|].
  intros [=]%list_elem_of_singleton.
Qed.

(** C3 as stated fails: collapsing the edge from [build@1] to [build@2]
    leaves the self-edge on [build]. *)
Lemma collapse_same_group_self_edge_cex :
  _collapse_graph (mkDiGraph ["build@1"; "build@2"] [("build@1", "build@2")])
  = Ok (mkDiGraph ["build"] [("build", "build")])
  ∧ ("build", "build") ∈ edges (mkDiGraph ["build"] [("build", "build")]).
Proof. split; [vm_compute; reflexivity | left]. Qed.

(** C3, amended.  For every label graph containing an edge between two
    distinct nodes that share a group key (both labels hold the separator),
    [_collapse_graph] returns a graph, and that graph contains the self-edge
    on the group's representative node. *)
Theorem collapse_same_group_self_edge (graph : DiGraph string) (u v : string) :
  wf_graph graph →
  (u, v) ∈ edges graph → u ≠ v →
  has_at u → has_at v → group_key u = group_key v →
  ∃ graph', _collapse_graph graph = Ok graph'
    ∧ group_key u ∈ nodes graph'
    ∧ (group_key u, group_key u) ∈ edges graph'.
Proof.
  intros Hwf He Hne Hu Hv Hk.
  pose proof (λ u v, wf_src graph u v Hwf) as Hsrc.
  assert (nodes graph ≠ []) as Hnodes.
  { intros Hnil. apply Hsrc in He. rewrite Hnil in He. by apply elem_of_nil in He. }
  destruct (last_is_Some _ Hnodes) as (x & Hx & _).
  rewrite (collapse_graph_last _ _ Hx). eexists. split; [reflexivity|].
  assert ((group_key u, group_key u)
          ∈ elements (list_to_set (collapsed <$> filter touched (edges graph))
                        : gset (string * string))) as Hnew.
  { apply elem_of_elements, elem_of_list_to_set, list_elem_of_fmap.
    exists (u, v). split.
    - unfold collapsed. simpl. by rewrite Hk.
    - apply list_elem_of_filter. split; [by left | done]. }
  assert (group_key u
          ∉ elements (list_to_set (filter has_at (nodes graph)) : gset string))
    as Hkeep.
  { rewrite elem_of_elements, elem_of_list_to_set, list_elem_of_filter.
    intros [Hat _]. by apply (group_key_no_at u). }
  split.
  - apply elem_of_nodes_remove_nodes_from. split; [|done].
    apply elem_of_nodes_add_edges_from. right.
    exists (group_key u, group_key u). split; [done | by left].
  - apply elem_of_edges_remove_nodes_from. split; [|done].
    apply elem_of_edges_add_edges_from. by right.
Qed.

Lemma collapse_same_group_self_edge_witness :
  ∃ graph',
    _collapse_graph (mkDiGraph ["build@1"; "build@2"] [("build@1", "build@2")])
    = Ok graph'
    ∧ group_key "build@1" ∈ nodes graph'
    ∧ (group_key "build@1", group_key "build@1") ∈ edges graph'.
Proof.
  apply (collapse_same_group_self_edge
           (mkDiGraph ["build@1"; "build@2"] [("build@1", "build@2")])
           "build@1" "build@2").
  - compute_done.
  - left.
  - discriminate.
  - exact I.
  - exact I.
  - reflexivity.
Defined.

(** ** Claims on quoting, target collection and the build *)

(** C8, at a label with a double quote at one end only.  The label made
    of the letter a and a double quote is not quoted (it does not begin
    with a double quote), yet [_quote_label] returns it as it is instead of
    wrapping it. *)
Theorem quote_label_one_sided :
  str_first ("a" +:+ dq) = Ok "a"%char
  ∧ _quote_label ("a" +:+ dq) = Ok ("a" +:+ dq)
  ∧ _quote_label ("a" +:+ dq) ≠ Ok (dq +:+ ("a" +:+ dq) +:+ dq).
Proof. split; [reflexivity|]. split; [reflexivity|]. discriminate. Qed.

(** C9, at a target that names a directory.  The one output found under
    the prefix contributes its characters, one list element each, and not
    its label. *)
Theorem collect_targets_splits_label :
  itervalues (index_outs_trie sample_index) ["data"]
  = Ok [mkOutput "data/clean.csv"]
  ∧ _collect_targets sample_repo (Some "data") true
    = Ok ["d"; "a"; "t"; "a"; "/"; "c"; "l"; "e"; "a"; "n"; "."; "c"; "s"; "v"]
  ∧ _collect_targets sample_repo (Some "data") true ≠ Ok ["data/clean.csv"].
Proof. split; [reflexivity|]. split; [reflexivity|]. discriminate. Qed.

(** With collapse requested, [_build] returns the collapse of the graph
    that [_transform] built, whatever the scope filter returned. *)
Lemma build_collapse_unfiltered repo target full outs graph :
  _build repo target full outs true = Ok graph →
  _collapse_graph (_transform (repo_index repo) outs) = Ok graph.
Proof.
  unfold _build.
  destruct (_collect_targets repo target outs) as [targets|]; [|done]. simpl.
  by destruct (_filter _ targets full).
Qed.

(** C1, at the target [train@1] of the sample repository.  The scope
    filter keeps [train@1] and [prep] and removes [eval]; the graph that
    [_build] returns with collapse requested holds [eval] again. *)
Theorem build_collapse_restores_filtered_nodes :
  _collect_targets sample_repo (Some "train@1") false = Ok ["train@1"]
  ∧ _filter (_transform sample_index false) ["train@1"] false
    = Ok (mkDiGraph ["prep"; "train@1"] [("train@1", "prep")])
  ∧ _build sample_repo (Some "train@1") false false true
    = Ok (mkDiGraph ["prep"; "eval"; "train"]
                    [("eval", "train"); ("train", "prep")])
  ∧ _collapse_graph (mkDiGraph ["prep"; "train@1"] [("train@1", "prep")])
    = Ok (mkDiGraph ["prep"; "train"] [("train", "prep")]).
Proof. repeat split; vm_compute; reflexivity. Qed.

(** ** Quoting is total on labels with a character and idempotent *)

Lemma str_last_nonempty c s : ∃ l, str_last (String c s) = Ok l.
Proof.
  revert c. induction s as [|c' s IH]; intros c.
  - by exists c.
  - destruct (IH c') as [l Hl]. exists l. simpl in *. by rewrite Hl.
Qed.

Lemma quote_label_nonempty s : s ≠ "" → _quote_label s = Ok (quoted s).
Proof.
  intros Hs. destruct s as [|c s]; [done|].
  unfold quoted, _quote_label. simpl str_first. cbn [mbind result_bind].
  destruct (str_last_nonempty c s) as [l ->].
  case_decide; [|done]. cbn [mbind result_bind]. by case_decide.
Qed.

Lemma quoted_cases s : quoted s = s ∨ quoted s = dq +:+ s +:+ dq.
Proof.
  destruct s as [|c s]; [by left|].
  unfold quoted, _quote_label. simpl str_first. cbn [mbind result_bind].
  destruct (str_last_nonempty c s) as [l ->].
  case_decide; [|by left]. cbn [mbind result_bind].
  case_decide; [by right | by left].
Qed.

Lemma quoted_idem s : quoted (quoted s) = quoted s.
Proof.
  destruct (quoted_cases s) as [Hq|Hq].
  - by rewrite !Hq.
  - rewrite Hq. reflexivity.
Qed.

(** ** Relabelling in place *)

Section relabel_facts.
Context {A : Type} `{EqDecision A}.
Implicit Types (G : DiGraph A) (n old new : A) (e : A * A).

Local Ltac solve_rename :=
  unfold rename1; simpl in *; repeat case_decide; simplify_eq; done.

Lemma relabel_step_nodes G old new n :
  wf_graph G → old ∈ nodes G →
  n ∈ nodes (relabel_step G old new)
  ↔ ∃ x, x ∈ nodes G ∧ n = rename1 old new x.
Proof.
  intros Hwf Hold. unfold relabel_step. rewrite decide_True by done.
  pose proof (λ u v, wf_src G u v Hwf) as Hsrc.
  pose proof (λ u v, wf_dst G u v Hwf) as Hdst.
  case_decide as Hnew.
  - subst new. rewrite elem_of_nodes_add_node. split.
    + intros [Hn| ->]; [exists n|exists old]; (split; [done|]); solve_rename.
    + intros (x & Hx & ->). left. solve_rename.
  - rewrite elem_of_nodes_add_edges_from. simpl.
    rewrite list_elem_of_filter, elem_of_nodes_add_node.
    unfold out_edges, in_edges. rewrite edges_add_node. split.
    + intros [[Hn [Hin| ->]]|(e & He & Hn)].
      * exists n. split; [done|]. solve_rename.
      * exists old. split; [done|]. solve_rename.
      * apply elem_of_app in He as [He|He];
          apply list_elem_of_fmap in He
            as ([s t] & -> & [Hst He]%list_elem_of_filter);
          simpl in Hst; subst.
        -- destruct Hn as [-> | ->].
           ++ exists old. split; [done|]. solve_rename.
           ++ exists t. split; [by eapply Hdst|]. solve_rename.
        -- destruct Hn as [-> | ->].
           ++ exists s. split; [by eapply Hsrc|]. solve_rename.
           ++ exists old. split; [done|]. solve_rename.
    + intros (x & Hx & ->). left. unfold rename1. case_decide as Hxo.
      * split; [done | by right].
      * split; [done | by left].
Qed.

Lemma relabel_step_edges G old new e :
  old ∈ nodes G →
  e ∈ edges (relabel_step G old new)
  ↔ ∃ e0, e0 ∈ edges G
       ∧ e = (rename1 old new e0.1, rename1 old new e0.2).
Proof.
  intros Hold. unfold relabel_step. rewrite decide_True by done.
  case_decide as Hnew.
  - subst new. rewrite edges_add_node. split.
    + intros He. exists e. split; [done|]. destruct e as [s t]. solve_rename.
    + intros ([s t] & He & ->). solve_rename.
  - rewrite elem_of_edges_add_edges_from. simpl.
    rewrite list_elem_of_filter, elem_of_app, !list_elem_of_fmap.
    unfold out_edges, in_edges. rewrite edges_add_node.
    setoid_rewrite list_elem_of_filter. split.
    + intros [[[H1 H2] He]|[([s t] & -> & Hst & He)|([s t] & -> & Hst & He)]];
        simpl in *; subst.
      * exists e. split; [done|]. destruct e as [s t]. solve_rename.
      * exists (old, t). split; [done|]. solve_rename.
      * exists (s, old). split; [done|]. solve_rename.
    + intros ([s t] & He & ->). unfold rename1. simpl.
      destruct (decide (s = old)) as [->|Hs].
      * right. left. exists (old, t). split; [|done]. solve_rename.
      * destruct (decide (t = old)) as [->|Ht].
        -- right. right. exists (s, old). split; [|done]. solve_rename.
        -- by left.
Qed.

Lemma relabel_step_wf G old new : wf_graph G → wf_graph (relabel_step G old new).
Proof.
  intros Hwf. destruct (decide (old ∈ nodes G)) as [Hold|Hold].
  - apply Forall_forall. intros e (e0 & He0 & ->)%relabel_step_edges; [|done].
    destruct e0 as [s t]. simpl.
    split; apply relabel_step_nodes; try done.
    + exists s. split; [by eapply wf_src|done].
    + exists t. split; [by eapply wf_dst|done].
  - unfold relabel_step. by rewrite decide_False.
Qed.
End relabel_facts.

Section relabel_fold.
Context {A : Type} `{EqDecision A} (f : A → A).
Hypothesis f_idem : ∀ x, f (f x) = f x.

(** After the labels of [l] have been visited, every label of [l] has
    been replaced by its image and the other labels are as they were. *)
Lemma rename_visit o l x :
  (if decide (rename1 o (f o) x ∈ l)
   then f (rename1 o (f o) x) else rename1 o (f o) x)
  = (if decide (x ∈ o :: l) then f x else x).
Proof.
  unfold rename1. destruct (decide (x = o)) as [->|Hx].
  - rewrite (decide_True (P := o ∈ o :: l)) by left.
    case_decide; by rewrite ?f_idem.
  - case_decide as Hl.
    + rewrite decide_True; [done | by right].
    + rewrite decide_False; [done|].
      by intros [?|?]%elem_of_cons.
Qed.

Lemma relabel_fold l (G : DiGraph A) :
  wf_graph G →
  let G' := foldl (λ G '(old, new), relabel_step G old new) G
                  ((λ n, (n, f n)) <$> l) in
  wf_graph G'
  ∧ (∀ n, n ∈ nodes G'
          ↔ ∃ x, x ∈ nodes G ∧ n = (if decide (x ∈ l) then f x else x))
  ∧ (∀ e, e ∈ edges G'
          ↔ ∃ e0, e0 ∈ edges G
               ∧ e = (if decide (e0.1 ∈ l) then f e0.1 else e0.1,
                      if decide (e0.2 ∈ l) then f e0.2 else e0.2)).
Proof.
  revert G. induction l as [|o l IH]; intros G Hwf;
    [simpl | rewrite fmap_cons; cbn [foldl]; cbv zeta].
  - split; [done|]. split.
    + intros n. split; [by exists n | by intros (x & Hx & ->)].
    + intros e. split.
      * exists e. by destruct e.
      * by intros ([s t] & He & ->).
  - destruct (IH (relabel_step G o (f o)) (relabel_step_wf _ _ _ Hwf))
      as (Hwf' & Hn & He).
    split; [done|].
    destruct (decide (o ∈ nodes G)) as [Ho|Ho].
    + split.
      * intros n. rewrite Hn. split.
        -- intros (y & (x & Hx & ->)%relabel_step_nodes & ->); [|done..].
           exists x. split; [done|]. apply rename_visit.
        -- intros (x & Hx & ->). exists (rename1 o (f o) x). split.
           ++ apply relabel_step_nodes; [done..|]. by exists x.
           ++ by rewrite rename_visit.
      * intros e. rewrite He. split.
        -- intros (e1 & (e0 & He0 & ->)%relabel_step_edges & ->); [|done].
           exists e0. split; [done|]. simpl. by rewrite !rename_visit.
        -- intros (e0 & He0 & ->).
           exists (rename1 o (f o) e0.1, rename1 o (f o) e0.2). split.
           ++ apply relabel_step_edges; [done|]. by exists e0.
           ++ simpl. by rewrite !rename_visit.
    + assert (relabel_step G o (f o) = G) as HG.
      { unfold relabel_step. by rewrite decide_False. }
      rewrite HG in Hn, He |- *.
      assert (∀ x, x ∈ nodes G →
                (if decide (x ∈ o :: l) then f x else x)
                = (if decide (x ∈ l) then f x else x)) as Hsame.
      { intros x Hx. assert (x ≠ o) by (by intros ->).
        case_decide as H1; case_decide as H2; try done.
        - by apply elem_of_cons in H1 as [?|?].
        - exfalso. apply H1. by right. }
      split.
      * intros n. rewrite Hn. split; intros (x & Hx & ->); exists x;
          by rewrite Hsame.
      * intros e. rewrite He.
        split; intros ([s t] & He0 & ->); exists (s, t); simpl;
          (split; [done|]);
          rewrite (Hsame s) by (by eapply wf_src);
          rewrite (Hsame t) by (by eapply wf_dst); done.
Qed.

Lemma relabel_collect (mapping : A → result A) l acc :
  (∀ n, n ∈ l → mapping n = Ok (f n)) →
  for_each (λ m n, new ← mapping n; Ok (m ++ [(n, new)])) l acc
  = Ok (acc ++ ((λ n, (n, f n)) <$> l)).
Proof.
  revert acc. induction l as [|x l IH]; intros acc Hmap; simpl.
  - by rewrite app_nil_r.
  - rewrite Hmap by left. simpl. rewrite IH.
    + by rewrite <- app_assoc.
    + intros n Hn. apply Hmap. by right.
Qed.

Lemma relabel_nodes_inplace_spec (mapping : A → result A) (G : DiGraph A) :
  wf_graph G →
  (∀ n, n ∈ nodes G → mapping n = Ok (f n)) →
  ∃ G', relabel_nodes_inplace G mapping = Ok G'
    ∧ wf_graph G'
    ∧ (∀ n, n ∈ nodes G' ↔ ∃ x, x ∈ nodes G ∧ n = f x)
    ∧ (∀ e, e ∈ edges G' ↔ ∃ e0, e0 ∈ edges G ∧ e = (f e0.1, f e0.2)).
Proof.
  intros Hwf Hmap. unfold relabel_nodes_inplace.
  rewrite (relabel_collect _ _ _ Hmap). simpl.
  destruct (relabel_fold (nodes G) G Hwf) as (Hwf' & Hn & He).
  eexists. split; [reflexivity|]. split; [done|]. split.
  - intros n. rewrite Hn. split; intros (x & Hx & ->); exists x;
      by rewrite decide_True.
  - intros e. rewrite He.
    split; intros ([s t] & He0 & ->); exists (s, t); simpl;
      (split; [done|]);
      rewrite (decide_True (P := s ∈ nodes G)) by (by eapply wf_src);
      rewrite (decide_True (P := t ∈ nodes G)) by (by eapply wf_dst); done.
Qed.
End relabel_fold.

(** ** The dot renderer *)

Lemma show_dot_spec (graph : DiGraph string) :
  wf_graph graph → labelled graph →
  ∃ graph',
    (∀ write_dot,
       _show_dot write_dot graph = (graph', Ok (write_dot (reverse graph'))))
    ∧ (∀ n, n ∈ nodes graph' ↔ ∃ x, x ∈ nodes graph ∧ n = quoted x)
    ∧ (∀ e, e ∈ edges graph'
            ↔ ∃ e0, e0 ∈ edges graph ∧ e = (quoted e0.1, quoted e0.2)).
Proof.
  intros Hwf Hlab.
  destruct (relabel_nodes_inplace_spec quoted quoted_idem _quote_label graph Hwf)
    as (graph' & Hrel & _ & Hn & He).
  { intros n Hn. apply quote_label_nonempty.
    unfold labelled in Hlab. rewrite Forall_forall in Hlab. by apply Hlab. }
  exists graph'. split; [|done].
  intros write_dot. unfold _show_dot. by rewrite Hrel.
Qed.

(** C7 as stated fails: after the call on the graph with the one node
    [a], the node of the caller's graph is the quoted label. *)
Lemma show_dot_input_unchanged_cex :
  nodes (_show_dot (λ _, "") (mkDiGraph ["a"] [])).1 = [dq +:+ "a" +:+ dq]
  ∧ nodes (_show_dot (λ _, "") (mkDiGraph ["a"] [])).1
    ≠ nodes (mkDiGraph ["a"] [] : DiGraph string).
Proof. split; [reflexivity | discriminate]. Qed.

(** C7, amended.  For every label graph, the dot renderer [_show_dot]
    relabels the graph it was given in place: after the call, the node
    labels of the input graph are the quoted forms of the labels it had
    before, and its edges are the edges it had before, between the quoted
    labels and in the same direction. *)
Theorem show_dot_relabels_input (write_dot : DiGraph string → string)
    (graph : DiGraph string) :
  wf_graph graph → labelled graph →
  (∀ n, n ∈ nodes (_show_dot write_dot graph).1
        ↔ ∃ x, x ∈ nodes graph ∧ n = quoted x)
  ∧ (∀ e, e ∈ edges (_show_dot write_dot graph).1
          ↔ ∃ e0, e0 ∈ edges graph ∧ e = (quoted e0.1, quoted e0.2)).
Proof.
  intros Hwf Hlab.
  destruct (show_dot_spec graph Hwf Hlab) as (graph' & Hshow & Hn & He).
  rewrite Hshow. done.
Qed.

Lemma show_dot_relabels_input_witness :
  (∀ n, n ∈ nodes (_show_dot (λ _, "") (mkDiGraph ["A"; "B"] [("A", "B")])).1
        ↔ ∃ x, x ∈ nodes (mkDiGraph ["A"; "B"] [("A", "B")]) ∧ n = quoted x)
  ∧ (∀ e, e ∈ edges (_show_dot (λ _, "") (mkDiGraph ["A"; "B"] [("A", "B")])).1
          ↔ ∃ e0, e0 ∈ edges (mkDiGraph ["A"; "B"] [("A", "B")])
               ∧ e = (quoted e0.1, quoted e0.2)).
Proof.
  apply (show_dot_relabels_input (λ _, "") (mkDiGraph ["A"; "B"] [("A", "B")])).
  - compute_done.
  - compute_done.
Defined.

(** ** The search computes reachability *)

Section reach_facts.
Context {A : Type} `{Countable A}.
Implicit Types (E : list (A * A)) (X : gset A) (s u v : A).

Lemma elem_of_expand E X v :
  v ∈ expand E X ↔ v ∈ X ∨ ∃ u, u ∈ X ∧ (u, v) ∈ E.
Proof.
  unfold expand.
  rewrite elem_of_union, elem_of_list_to_set, list_elem_of_fmap.
  split; (intros [Hv|Hv]; [by left | right]).
  - destruct Hv as ([u w] & -> & [Hu He]%list_elem_of_filter). by exists u.
  - destruct Hv as (u & Hu & He). exists (u, v). split; [done|].
    by apply list_elem_of_filter.
Qed.

Lemma closure_extensive E k X : X ⊆ closure E k X.
Proof.
  revert X. induction k as [|k IH]; intros X; simpl; [done|].
  etrans; [|apply IH]. intros v Hv. apply elem_of_expand. by left.
Qed.

Lemma closure_sound E k X s v :
  (∀ x, x ∈ X → rtc (edge_rel E) s x) →
  v ∈ closure E k X → rtc (edge_rel E) s v.
Proof.
  revert X. induction k as [|k IH]; intros X HX; simpl; [by apply HX|].
  apply IH. intros x [Hx|(u & Hu & He)]%elem_of_expand; [by apply HX|].
  eapply rtc_r; [by apply HX | done].
Qed.

(** A set that the expansion step leaves as it is stays so. *)
Lemma closure_fixed E k X : expand E X = X → closure E k X = X.
Proof. intros HX. induction k as [|k IH]; simpl; [done|]. by rewrite HX. Qed.

Lemma closure_fixed_or_grows E k X :
  expand E (closure E k X) = closure E k X
  ∨ size X + k ≤ size (closure E k X).
Proof.
  revert X. induction k as [|k IH]; intros X; simpl.
  - right. lia.
  - destruct (decide (expand E X = X)) as [HX|HX].
    + left. rewrite HX, closure_fixed by done. done.
    + destruct (IH (expand E X)) as [?|Hsize]; [by left|]. right.
      assert (X ⊂ expand E X) as Hlt%subset_size; [|lia].
      split.
      * intros v Hv. apply elem_of_expand. by left.
      * intros Hsub. apply HX. apply set_eq. intros v. split; [apply Hsub|].
        intros Hv. apply elem_of_expand. by left.
Qed.

Lemma size_list_to_set_le (l : list A) : size (list_to_set l : gset A) ≤ length l.
Proof.
  induction l as [|x l IH]; simpl.
  - done.
  - rewrite size_union_alt, size_singleton.
    assert (size (list_to_set l ∖ {[x]} : gset A) ≤ size (list_to_set l : gset A)).
    { apply subseteq_size. intros v [Hv _]%elem_of_difference. done. }
    lia.
Qed.

Lemma reach_bound E s : size (reach E s) ≤ 1 + length E.
Proof.
  assert (reach E s ⊆ {[s]} ∪ list_to_set (E.*2)) as Hsub%subseteq_size.
  { intros v Hv. apply (closure_sound E _ _ s) in Hv.
    - apply rtc_inv_r in Hv as [->|(u & _ & He)].
      + apply elem_of_union. left. by apply elem_of_singleton.
      + apply elem_of_union. right. apply elem_of_list_to_set.
        apply list_elem_of_fmap. by exists (u, v).
    - intros x ->%elem_of_singleton. done. }
  rewrite size_union_alt, size_singleton in Hsub.
  assert (size (list_to_set E.*2 ∖ {[s]} : gset A) ≤ length E).
  { etrans; [apply subseteq_size|].
    - intros v [Hv _]%elem_of_difference. exact Hv.
    - etrans; [apply size_list_to_set_le|]. by rewrite length_fmap. }
  lia.
Qed.

Lemma reach_closed E s u v : u ∈ reach E s → (u, v) ∈ E → v ∈ reach E s.
Proof.
  intros Hu He.
  destruct (closure_fixed_or_grows E (S (length E)) {[s]}) as [Hfix|Hsize].
  - unfold reach. rewrite <- Hfix. apply elem_of_expand. right. by exists u.
  - pose proof (reach_bound E s) as Hb. unfold reach in Hb.
    rewrite size_singleton in Hsize. lia.
Qed.

Lemma elem_of_reach E s v : v ∈ reach E s ↔ rtc (edge_rel E) s v.
Proof.
  split.
  - apply closure_sound. intros x ->%elem_of_singleton. done.
  - revert v. apply rtc_ind_r.
    + apply closure_extensive. by apply elem_of_singleton.
    + intros u v Hr He IH. by eapply reach_closed.
Qed.

(** The symmetric edge list of [to_undirected] gives the paths that may
    take edges backwards. *)
Lemma edge_rel_undirected (G : DiGraph A) u v :
  edge_rel (edges (to_undirected G)) u v ↔ sc (edge_rel (edges G)) u v.
Proof.
  unfold edge_rel, to_undirected, sc. simpl.
  rewrite elem_of_app, list_elem_of_fmap. split.
  - intros [?|([a b] & [= -> ->] & ?)]; [by left | by right].
  - intros [?|?]; [by left | right]. by exists (v, u).
Qed.

Lemma elem_of_reach_undirected (G : DiGraph A) s v :
  v ∈ reach (edges (to_undirected G)) s ↔ rtsc (edge_rel (edges G)) s v.
Proof.
  rewrite elem_of_reach. unfold rtsc.
  split; apply rtc_subrel; intros a b; apply edge_rel_undirected.
Qed.
End reach_facts.

(** ** The scope filter *)

Section restrict.
Context {A : Type} `{Countable A}.

(** Removing the nodes outside a set [D]. *)
Lemma elem_of_nodes_restrict (g : DiGraph A) (D : gset A) n :
  n ∈ nodes (remove_nodes_from g (elements (list_to_set (nodes g) ∖ D)))
  ↔ n ∈ nodes g ∧ n ∈ D.
Proof.
  rewrite elem_of_nodes_remove_nodes_from, elem_of_elements,
    elem_of_difference, elem_of_list_to_set.
  split.
  - intros [Hn Hnot]. split; [done|].
    destruct (decide (n ∈ D)); [done|]. exfalso. by apply Hnot.
  - intros [Hn HD]. split; [done|]. by intros [_ ?].
Qed.

Lemma elem_of_edges_restrict (g : DiGraph A) (D : gset A) u v :
  wf_graph g →
  (u, v) ∈ edges (remove_nodes_from g (elements (list_to_set (nodes g) ∖ D)))
  ↔ (u, v) ∈ edges g ∧ u ∈ D ∧ v ∈ D.
Proof.
  intros Hwf.
  rewrite elem_of_edges_remove_nodes_from, !elem_of_elements,
    !elem_of_difference, !elem_of_list_to_set. simpl.
  split.
  - intros (He & Hu & Hv). split; [done|]. split.
    + destruct (decide (u ∈ D)); [done|]. exfalso. apply Hu.
      split; [by eapply wf_src | done].
    + destruct (decide (v ∈ D)); [done|]. exfalso. apply Hv.
      split; [by eapply wf_dst | done].
  - intros (He & Hu & Hv). split; [done|]. split; by intros [_ ?].
Qed.

(** A path stays inside the set of nodes reachable from its start. *)
Lemma rtc_within_reach (E E' : list (A * A)) s v :
  (∀ a b, (a, b) ∈ E → a ∈ reach E s → b ∈ reach E s → (a, b) ∈ E') →
  rtc (edge_rel E) s v → rtc (edge_rel E') s v.
Proof.
  intros Hin. revert v. apply rtc_ind_r; [done|].
  intros u v Hr He IH. eapply rtc_r; [exact IH|].
  apply Hin; [done| |].
  - by apply elem_of_reach.
  - apply elem_of_reach. by eapply rtc_r.
Qed.

(** Under well-formedness a path from a node ends in a node. *)
Lemma rtc_in_nodes (g : DiGraph A) s v :
  wf_graph g → s ∈ nodes g → rtc (edge_rel (edges g)) s v → v ∈ nodes g.
Proof.
  intros Hwf Hs [->|(u & _ & He)]%rtc_inv_r; [done|]. by eapply wf_dst.
Qed.
End restrict.

(** C4.  For every label graph (acyclic or not) and every single target
    label [T] present in it, [_filter] with [full = false] returns a graph,
    and the node set of that graph is the target together with its
    descendants in the dependency direction, intersected with the
    undirected connected component of the target. *)
Theorem filter_scope_sound (graph : DiGraph string) (T : string) :
  wf_graph graph → T ∈ nodes graph →
  ∃ graph', _filter graph [T] false = Ok graph'
    ∧ ∀ n, n ∈ nodes graph'
           ↔ (n = T ∨ tc (edge_rel (edges graph)) T n)
             ∧ rtsc (edge_rel (edges graph)) T n.
Proof.
  intros Hwf HT. unfold _filter, descendants, copy. simpl.
  rewrite decide_True by done. simpl.
  set (D := (∅ ∪ reach (edges graph) T ∖ {[T]}) ∪ {[T]} : gset string).
  set (g1 := remove_nodes_from graph (elements (list_to_set (nodes graph) ∖ D))).
  assert (∀ n, n ∈ D ↔ rtc (edge_rel (edges graph)) T n) as HD.
  { intros n. rewrite <- elem_of_reach. unfold D.
    rewrite !elem_of_union, elem_of_difference, !elem_of_singleton. split.
    - intros [[[]%not_elem_of_empty|[? _]]| ->]; [done|].
      by apply elem_of_reach.
    - intros Hn. destruct (decide (n = T)); [by right | left; right; done]. }
  assert (T ∈ nodes g1) as HT1.
  { apply elem_of_nodes_restrict. split; [done|]. by apply HD. }
  unfold node_connected_component. simpl. rewrite decide_True by done. simpl.
  eexists. split; [reflexivity|]. intros n.
  rewrite elem_of_nodes_restrict, elem_of_union.
  change (edges g1 ++ ((λ e : string * string, (e.2, e.1)) <$> edges g1))
    with (edges (to_undirected g1)).
  rewrite elem_of_reach_undirected.
  unfold g1 at 1. rewrite elem_of_nodes_restrict, HD.
  split.
  - intros [[Hn Hr] _]. split.
    + apply rtc_tc in Hr as [->|?]; [by left | by right].
    + by apply rtc_rtsc_rl.
  - intros [Hr _].
    assert (rtc (edge_rel (edges graph)) T n) as Hr'.
    { destruct Hr as [->|?]; [done | by apply tc_rtc]. }
    clear Hr. rename Hr' into Hr.
    split; [split; [by eapply rtc_in_nodes | done]|]. right.
    apply rtc_rtsc_rl. eapply rtc_within_reach; [|exact Hr].
    intros a b He Ha Hb. apply elem_of_edges_restrict; [done|].
    split; [done|]. split; apply HD; by apply elem_of_reach.
Qed.

Lemma filter_scope_sound_witness :
  ∃ graph',
    _filter (mkDiGraph ["A"; "B"; "C"] [("A", "B"); ("B", "C")]) ["B"] false
    = Ok graph'
    ∧ ∀ n, n ∈ nodes graph'
           ↔ (n = "B"
              ∨ tc (edge_rel (edges (mkDiGraph ["A"; "B"; "C"]
                                               [("A", "B"); ("B", "C")]))) "B" n)
             ∧ rtsc (edge_rel (edges (mkDiGraph ["A"; "B"; "C"]
                                                [("A", "B"); ("B", "C")]))) "B" n.
Proof.
  apply (filter_scope_sound (mkDiGraph ["A"; "B"; "C"] [("A", "B"); ("B", "C")])
           "B").
  - compute_done.
  - compute_done.
Defined.

(** ** Pipelines *)

Section components_facts.
Context {A : Type} `{Countable A}.

Lemma components_from_cover (E : list (A * A)) todo (seen : gset A) n :
  n ∈ todo →
  n ∈ seen ∨ ∃ c v, c ∈ components_from E todo seen ∧ c = reach E v ∧ n ∈ c.
Proof.
  revert seen. induction todo as [|w todo IH]; intros seen Hn.
  { by apply elem_of_nil in Hn. }
  simpl. apply elem_of_cons in Hn as [->|Hn].
  - case_decide as Hw; [by left|]. right.
    exists (reach E w), w. split; [left|]. split; [done|].
    by apply elem_of_reach.
  - case_decide as Hw.
    + by apply IH.
    + destruct (IH (seen ∪ reach E w) Hn) as [[?|Hc]%elem_of_union|(c & v & Hc & ? & ?)].
      * by left.
      * right. exists (reach E w), w. split; [left | done].
      * right. exists c, v. split; [by right | done].
Qed.

(** Every edge of a well-formed graph lies, with both its ends, in one of
    the subgraphs cut along the weakly connected components. *)
Lemma edge_in_component (G : DiGraph A) u v :
  wf_graph G → (u, v) ∈ edges G →
  ∃ c, c ∈ weakly_connected_components G
    ∧ u ∈ nodes (subgraph G c) ∧ v ∈ nodes (subgraph G c)
    ∧ (u, v) ∈ edges (subgraph G c).
Proof.
  intros Hwf He.
  pose proof (wf_src _ _ _ Hwf He) as Hu.
  pose proof (wf_dst _ _ _ Hwf He) as Hv.
  destruct (components_from_cover (edges (to_undirected G)) (nodes G) ∅ u Hu)
    as [[]%not_elem_of_empty|(c & w & Hc & -> & Huc)].
  assert (v ∈ reach (edges (to_undirected G)) w) as Hvc.
  { eapply reach_closed; [exact Huc|].
    apply edge_rel_undirected. by left. }
  eexists. split; [exact Hc|]. unfold subgraph. simpl.
  rewrite !list_elem_of_filter. done.
Qed.
End components_facts.

Lemma edge_in_pipeline (graph : DiGraph string) u v :
  wf_graph graph → (u, v) ∈ edges graph →
  ∃ pipeline, pipeline ∈ get_pipelines graph
    ∧ u ∈ nodes pipeline ∧ v ∈ nodes pipeline ∧ (u, v) ∈ edges pipeline.
Proof.
  intros Hwf He. destruct (edge_in_component graph u v Hwf He) as (c & Hc & ?).
  exists (subgraph graph c). split; [|done].
  unfold get_pipelines. apply list_elem_of_fmap. by exists c.
Qed.

(** ** Texts *)

Lemma str_app_cons c s t : String c s +:+ t = String c (s +:+ t).
Proof. reflexivity. Qed.

Lemma str_app_nil_r s : s +:+ "" = s.
Proof. induction s as [|c s IH]; [done|]. by rewrite str_app_cons, IH. Qed.

Lemma str_app_assoc s t u : (s +:+ t) +:+ u = s +:+ (t +:+ u).
Proof. induction s as [|c s IH]; [done|]. by rewrite !str_app_cons, IH. Qed.




(** ** The flowchart renderer *)

Lemma mermaid_nodes_cons node nodes graph total_nodes node_ids :
  mermaid_nodes (node :: nodes) (graph, total_nodes, node_ids)
  = mermaid_nodes nodes
      (graph +:+ node_line ("node" +:+ str_of_nat (total_nodes + 1)) node,
       total_nodes + 1,
       <[node := "node" +:+ str_of_nat (total_nodes + 1)]> node_ids).
Proof. reflexivity. Qed.





Lemma mermaid_edges_cons (node_ids : gmap string string) a b edges graph src dst :
  node_ids !! a = Some src → node_ids !! b = Some dst →
  mermaid_edges node_ids ((a, b) :: edges) graph
  = mermaid_edges node_ids edges (graph +:+ arrow_line src dst).
Proof.
  intros Ha Hb. unfold mermaid_edges. cbn [for_each].
  assert (dict_get node_ids a = Ok src) as -> by (unfold dict_get; by rewrite Ha).
  assert (dict_get node_ids b = Ok dst) as -> by (unfold dict_get; by rewrite Hb).
  done.
Qed.


Lemma subgraph_wf (G : DiGraph string) (c : gset string) :
  wf_graph G → wf_graph (subgraph G c).
Proof.
  intros Hwf. apply Forall_forall.
  intros [u v] [[Hu Hv] He]%list_elem_of_filter. simpl in *.
  split; apply list_elem_of_filter; (split; [done|]).
  - by eapply wf_src.
  - by eapply wf_dst.
Qed.

(** ** Whole lines of the flowchart and the numbering of the nodes *)

Lemma ends_line_nil : ends_line "".
Proof. by left. Qed.

Lemma ends_line_app a b : ends_line a → ends_line b → ends_line (a +:+ b).
Proof.
  intros [->|[r ->]] Hb; [done|]. right. exists (r +:+ b).
  by rewrite str_app_assoc.
Qed.

Lemma ends_line_node_line id x : ends_line (node_line id x).
Proof. right. by eexists. Qed.

Lemma ends_line_arrow_line src dst : ends_line (arrow_line src dst).
Proof. right. by eexists. Qed.

Lemma has_line_end text line : has_line (text +:+ line) line.
Proof. exists text, "". split; [by rewrite str_app_nil_r | by left]. Qed.

Lemma has_line_app_r text line more :
  has_line text line → ends_line more → has_line (text +:+ more) line.
Proof.
  intros (pre & post & -> & Hpost) Hmore. exists pre, (post +:+ more).
  split; [by rewrite !str_app_assoc | by apply ends_line_app].
Qed.

Lemma has_line_app_l text line more :
  has_line text line → has_line (more +:+ text) line.
Proof.
  intros (pre & post & -> & Hpost). exists (more +:+ pre), post.
  split; [by rewrite !str_app_assoc | done].
Qed.

(** Decimal numerals tell the numbers apart, and so do the identifiers. *)
Lemma str_of_nat_inj n m : str_of_nat n = str_of_nat m → n = m.
Proof.
  unfold str_of_nat. intros Heq. apply Unsigned.to_uint_inj.
  assert (Some (Nat.to_uint n) = Some (Nat.to_uint m)) as [= ?]; [|done].
  by rewrite <- !NilEmpty.usu, Heq.
Qed.

Lemma node_id_inj i j : node_id i = node_id j → i = j.
Proof.
  unfold node_id. intros Heq%(inj (String.app "node"))%str_of_nat_inj. lia.
Qed.

Lemma mermaid_nodes_count l graph total_nodes (node_ids : gmap string string) :
  (mermaid_nodes l (graph, total_nodes, node_ids)).1.2 = total_nodes + length l.
Proof.
  revert graph total_nodes node_ids.
  induction l as [|x l IH]; intros graph total_nodes node_ids.
  - simpl. lia.
  - rewrite mermaid_nodes_cons, IH. simpl. lia.
Qed.

Lemma mermaid_nodes_lines l graph total_nodes node_ids :
  ∃ more,
    (mermaid_nodes l (graph, total_nodes, node_ids)).1.1 = graph +:+ more
    ∧ ends_line more
    ∧ ∀ i x, l !! i = Some x →
        has_line (graph +:+ more)
                 (node_line ("node" +:+ str_of_nat (total_nodes + i + 1)) x).
Proof.
  revert graph total_nodes node_ids.
  induction l as [|x0 l IH]; intros graph total_nodes node_ids.
  - exists "". split; [by rewrite str_app_nil_r|]. split; [by left|].
    intros i x Hi. by rewrite lookup_nil in Hi.
  - rewrite mermaid_nodes_cons.
    destruct (IH (graph +:+ node_line ("node" +:+ str_of_nat (total_nodes + 1)) x0)
                 (total_nodes + 1)
                 (<[x0 := "node" +:+ str_of_nat (total_nodes + 1)]> node_ids))
      as (more & -> & Hmore & Hlines).
    exists (node_line ("node" +:+ str_of_nat (total_nodes + 1)) x0 +:+ more).
    rewrite <- str_app_assoc. split; [done|].
    split; [by apply ends_line_app; [apply ends_line_node_line|]|].
    intros [|i] x Hi.
    + injection Hi as ->.
      replace (total_nodes + 0 + 1) with (total_nodes + 1) by lia.
      apply has_line_app_r; [apply has_line_end | done].
    + replace (total_nodes + S i + 1) with (total_nodes + 1 + i + 1) by lia.
      by apply Hlines.
Qed.

Lemma mermaid_nodes_other l graph total_nodes (node_ids : gmap string string) x :
  x ∉ l →
  (mermaid_nodes l (graph, total_nodes, node_ids)).2 !! x = node_ids !! x.
Proof.
  revert graph total_nodes node_ids.
  induction l as [|x0 l IH]; intros graph total_nodes node_ids Hx; [done|].
  apply not_elem_of_cons in Hx as [Hne Hx].
  rewrite mermaid_nodes_cons, IH by done. by rewrite lookup_insert_ne.
Qed.

(** With distinct labels no identifier is overwritten: the dictionary gives
    each node the number of its declaration. *)
Lemma mermaid_nodes_ids l graph total_nodes (node_ids : gmap string string) i x :
  NoDup l → l !! i = Some x →
  (mermaid_nodes l (graph, total_nodes, node_ids)).2 !! x
  = Some ("node" +:+ str_of_nat (total_nodes + i + 1)).
Proof.
  revert graph total_nodes node_ids i.
  induction l as [|x0 l IH]; intros graph total_nodes node_ids i Hnd Hi.
  { by rewrite lookup_nil in Hi. }
  apply NoDup_cons in Hnd as [Hx0 Hnd]. rewrite mermaid_nodes_cons.
  destruct i as [|i].
  - injection Hi as ->. rewrite mermaid_nodes_other by done.
    rewrite lookup_insert_eq.
    by replace (total_nodes + 0 + 1) with (total_nodes + 1) by lia.
  - rewrite (IH _ _ _ i) by done.
    by replace (total_nodes + S i + 1) with (total_nodes + 1 + i + 1) by lia.
Qed.

Lemma mermaid_edges_lines (node_ids : gmap string string) edges graph :
  (∀ a b, (a, b) ∈ edges → is_Some (node_ids !! a) ∧ is_Some (node_ids !! b)) →
  ∃ more,
    mermaid_edges node_ids edges graph = Ok (graph +:+ more)
    ∧ ends_line more
    ∧ ∀ a b, (a, b) ∈ edges →
        ∃ src dst, node_ids !! a = Some src ∧ node_ids !! b = Some dst
          ∧ has_line (graph +:+ more) (arrow_line src dst).
Proof.
  revert graph. induction edges as [|[a b] edges IH]; intros graph Hids.
  - exists "". split; [by rewrite str_app_nil_r|]. split; [by left|].
    intros a b Hab. by apply elem_of_nil in Hab.
  - destruct (Hids a b) as [[src Hsrc] [dst Hdst]]; [left|].
    destruct (IH (graph +:+ arrow_line src dst)) as (more & Hrun & Hmore & Hall).
    { intros a' b' Hab. apply Hids. by right. }
    exists (arrow_line src dst +:+ more).
    rewrite (mermaid_edges_cons _ _ _ _ _ _ _ Hsrc Hdst), Hrun, <- str_app_assoc.
    split; [done|].
    split; [by apply ends_line_app; [apply ends_line_arrow_line|]|].
    intros a' b' [[= -> ->]|Hab]%elem_of_cons.
    + exists src, dst. split; [done|]. split; [done|].
      apply has_line_app_r; [apply has_line_end | done].
    + by apply Hall.
Qed.

Lemma mermaid_pipeline_lines graph total_nodes (pipeline : DiGraph string) :
  wf_graph pipeline → NoDup (nodes pipeline) →
  ∃ more,
    mermaid_pipeline (graph, total_nodes) pipeline
    = Ok (graph +:+ more,
          total_nodes + length (merge_sort String.le (nodes pipeline)))
    ∧ ends_line more
    ∧ (∀ i x, merge_sort String.le (nodes pipeline) !! i = Some x →
         has_line (graph +:+ more)
                  (node_line ("node" +:+ str_of_nat (total_nodes + i + 1)) x))
    ∧ (∀ a b, (a, b) ∈ edges pipeline →
         ∃ i j,
           merge_sort String.le (nodes pipeline) !! i = Some a
           ∧ merge_sort String.le (nodes pipeline) !! j = Some b
           ∧ has_line (graph +:+ more)
               (arrow_line ("node" +:+ str_of_nat (total_nodes + j + 1))
                           ("node" +:+ str_of_nat (total_nodes + i + 1)))).
Proof.
  intros Hwf Hnd. unfold mermaid_pipeline.
  set (sorted_nodes := merge_sort String.le (nodes pipeline)).
  set (sorted_edges :=
         merge_sort pair_le ((λ '(b, a), (a, b)) <$> edges pipeline)).
  assert (NoDup sorted_nodes) as Hnd'.
  { unfold sorted_nodes. by rewrite merge_sort_Permutation. }
  assert (∀ x, x ∈ sorted_nodes ↔ x ∈ nodes pipeline) as Hsn.
  { intros x. unfold sorted_nodes. by rewrite merge_sort_Permutation. }
  assert (∀ a b, (a, b) ∈ sorted_edges ↔ (b, a) ∈ edges pipeline) as Hse.
  { intros a b. unfold sorted_edges.
    rewrite merge_sort_Permutation, list_elem_of_fmap. split.
    - by intros ([b' a'] & [= -> ->] & ?).
    - intros ?. by exists (b, a). }
  pose proof (mermaid_nodes_count sorted_nodes graph total_nodes ∅) as Hcount.
  pose proof (mermaid_nodes_lines sorted_nodes graph total_nodes ∅)
    as (more1 & Htext & Hmore1 & Hdecl).
  pose proof (λ i x, mermaid_nodes_ids sorted_nodes graph total_nodes ∅ i x Hnd')
    as Hids.
  destruct (mermaid_nodes sorted_nodes (graph, total_nodes, ∅))
    as [[graph1 total1] node_ids]. simpl in Hcount, Htext, Hids.
  subst graph1 total1.
  destruct (mermaid_edges_lines node_ids sorted_edges (graph +:+ more1))
    as (more2 & Hrun & Hmore2 & Harrows).
  { intros a b Hba%Hse.
    pose proof (wf_src _ _ _ Hwf Hba) as Hb.
    pose proof (wf_dst _ _ _ Hwf Hba) as Ha.
    apply Hsn, list_elem_of_lookup in Ha as [i Hi].
    apply Hsn, list_elem_of_lookup in Hb as [j Hj].
    rewrite (Hids _ _ Hi), (Hids _ _ Hj). by split; eexists. }
  rewrite Hrun. simpl. exists (more1 +:+ more2).
  rewrite <- str_app_assoc. split; [done|].
  split; [by apply ends_line_app|]. split.
  - intros i x Hi. apply has_line_app_r; [by apply Hdecl | done].
  - intros a b Hab.
    pose proof (wf_src _ _ _ Hwf Hab) as Ha.
    pose proof (wf_dst _ _ _ Hwf Hab) as Hb.
    apply Hsn, list_elem_of_lookup in Ha as [i Hi].
    apply Hsn, list_elem_of_lookup in Hb as [j Hj].
    exists i, j. split; [done|]. split; [done|].
    destruct (Harrows b a) as (src & dst & Hsrc & Hdst & Hline).
    { by apply Hse. }
    rewrite (Hids _ _ Hj) in Hsrc. rewrite (Hids _ _ Hi) in Hdst.
    injection Hsrc as <-. injection Hdst as <-. done.
Qed.

Lemma mermaid_pipelines_lines (pipelines : list (DiGraph string)) graph total_nodes :
  (∀ pipeline, pipeline ∈ pipelines → wf_graph pipeline ∧ NoDup (nodes pipeline)) →
  ∃ more total_nodes',
    for_each mermaid_pipeline pipelines (graph, total_nodes)
    = Ok (graph +:+ more, total_nodes')
    ∧ ends_line more
    ∧ (∀ i x,
         concat ((λ pipeline, merge_sort String.le (nodes pipeline)) <$> pipelines)
           !! i = Some x →
         has_line (graph +:+ more)
                  (node_line ("node" +:+ str_of_nat (total_nodes + i + 1)) x))
    ∧ (∀ pipeline a b, pipeline ∈ pipelines → (a, b) ∈ edges pipeline →
         ∃ i j,
           concat ((λ pipeline, merge_sort String.le (nodes pipeline)) <$> pipelines)
             !! i = Some a
           ∧ concat ((λ pipeline, merge_sort String.le (nodes pipeline)) <$> pipelines)
               !! j = Some b
           ∧ has_line (graph +:+ more)
               (arrow_line ("node" +:+ str_of_nat (total_nodes + j + 1))
                           ("node" +:+ str_of_nat (total_nodes + i + 1)))).
Proof.
  revert graph total_nodes.
  induction pipelines as [|p pipelines IH]; intros graph total_nodes Hps.
  - exists "", total_nodes. split; [by rewrite str_app_nil_r|].
    split; [by left|]. split.
    + intros i x Hi. simpl in Hi. by rewrite lookup_nil in Hi.
    + intros p a b Hp. by apply elem_of_nil in Hp.
  - destruct (Hps p) as [Hwf Hnd]; [left|].
    destruct (mermaid_pipeline_lines graph total_nodes p Hwf Hnd)
      as (more1 & Hp & Hmore1 & Hdecl1 & Harrow1).
    set (sorted := merge_sort String.le (nodes p)) in *.
    destruct (IH (graph +:+ more1) (total_nodes + length sorted))
      as (more2 & total2 & Hrest & Hmore2 & Hdecl2 & Harrow2).
    { intros q Hq. apply Hps. by right. }
    exists (more1 +:+ more2), total2. cbn [for_each]. rewrite Hp. simpl.
    rewrite Hrest, <- str_app_assoc. split; [done|].
    split; [by apply ends_line_app|].
    fold sorted. split.
    + intros i x [Hi|[Hlen Hi]]%lookup_app_Some.
      * apply has_line_app_r; [by apply Hdecl1 | done].
      * apply Hdecl2 in Hi.
        by replace (total_nodes + length sorted + (i - length sorted) + 1)
          with (total_nodes + i + 1) in Hi by lia.
    + intros q a b [->|Hq]%elem_of_cons Hab.
      * destruct (Harrow1 a b Hab) as (i & j & Hi & Hj & Hline).
        exists i, j.
        split; [apply lookup_app_Some; by left|].
        split; [apply lookup_app_Some; by left|].
        by apply has_line_app_r.
      * destruct (Harrow2 q a b Hq Hab) as (i & j & Hi & Hj & Hline).
        exists (length sorted + i), (length sorted + j).
        split.
        { apply lookup_app_Some. right. split; [lia|].
          by replace (length sorted + i - length sorted) with i by lia. }
        split.
        { apply lookup_app_Some. right. split; [lia|].
          by replace (length sorted + j - length sorted) with j by lia. }
        by replace (total_nodes + (length sorted + j) + 1)
             with (total_nodes + length sorted + j + 1) by lia;
           replace (total_nodes + (length sorted + i) + 1)
             with (total_nodes + length sorted + i + 1) by lia.
Qed.

Lemma get_pipelines_wf_NoDup (graph : DiGraph string) pipeline :
  wf_graph graph → NoDup (nodes graph) → pipeline ∈ get_pipelines graph →
  wf_graph pipeline ∧ NoDup (nodes pipeline).
Proof.
  intros Hwf Hnd Hp. unfold get_pipelines in Hp.
  apply list_elem_of_fmap in Hp as (c & -> & _). split.
  - by apply subgraph_wf.
  - unfold subgraph. simpl. by apply NoDup_filter.
Qed.

(** The flowchart text, line by line: the node at position [i] of the
    declaration order is declared under [node_id i], and an edge from [a] to
    [b] is the arrow line from the identifier of [b] to that of [a]. *)
Lemma show_mermaid_lines (graph : DiGraph string) (markdown : bool) :
  wf_graph graph → NoDup (nodes graph) →
  ∃ text,
    _show_mermaid graph markdown = Ok text
    ∧ (∀ i x, mermaid_order graph !! i = Some x →
         has_line text (node_line (node_id i) x))
    ∧ (∀ a b, (a, b) ∈ edges graph →
         ∃ i j,
           mermaid_order graph !! i = Some a
           ∧ mermaid_order graph !! j = Some b
           ∧ has_line text (arrow_line (node_id j) (node_id i))).
Proof.
  intros Hwf Hnd. unfold _show_mermaid, mermaid_order.
  destruct (mermaid_pipelines_lines (get_pipelines graph) "flowchart TD" 0)
    as (more & total & -> & Hmore & Hdecl & Harrow).
  { intros p Hp. by apply (get_pipelines_wf_NoDup graph). }
  simpl.
  assert (∀ line, has_line ("flowchart TD" +:+ more) line →
            has_line ("```mermaid" +:+ nl +:+ ("flowchart TD" +:+ more)
                        +:+ nl +:+ "```") line) as Hfence.
  { intros line Hline. apply has_line_app_l, has_line_app_l.
    apply has_line_app_r; [done|]. right. by eexists. }
  assert (∀ text,
            (∀ line, has_line ("flowchart TD" +:+ more) line → has_line text line) →
            (∀ i x,
               concat ((λ p, merge_sort String.le (nodes p)) <$> get_pipelines graph)
                 !! i = Some x →
               has_line text (node_line (node_id i) x))
            ∧ (∀ a b, (a, b) ∈ edges graph →
                 ∃ i j,
                   concat ((λ p, merge_sort String.le (nodes p))
                             <$> get_pipelines graph) !! i = Some a
                   ∧ concat ((λ p, merge_sort String.le (nodes p))
                               <$> get_pipelines graph) !! j = Some b
                   ∧ has_line text (arrow_line (node_id j) (node_id i))))
    as Hall.
  { intros text Htext. split.
    - intros i x Hi. apply Htext. unfold node_id.
      replace (S i) with (0 + i + 1) by lia. by apply Hdecl.
    - intros a b Hab.
      destruct (edge_in_pipeline graph a b Hwf Hab) as (p & Hp & _ & _ & Hab').
      destruct (Harrow p a b Hp Hab') as (i & j & Hi & Hj & Hline).
      exists i, j. split; [done|]. split; [done|]. apply Htext.
      unfold node_id. replace (S i) with (0 + i + 1) by lia.
      by replace (S j) with (0 + j + 1) by lia. }
  destruct markdown; eexists; (split; [reflexivity|]); by apply Hall.
Qed.

Lemma rtc_edge_rel_sym (E : list (string * string)) u v :
  (∀ a b, (a, b) ∈ E → (b, a) ∈ E) →
  rtc (edge_rel E) u v → rtc (edge_rel E) v u.
Proof.
  intros Hsym Huv. induction Huv as [|u w v Huw _ IH]; [done|].
  eapply rtc_r; [exact IH|]. by apply Hsym.
Qed.

(** The components are met one after the other and never overlap, so the
    declaration order lists no node twice. *)
Lemma components_order_NoDup (E : list (string * string)) nodes0 todo
    (seen : gset string) :
  (∀ a b, (a, b) ∈ E → (b, a) ∈ E) →
  (∀ u n, u ∈ seen → rtc (edge_rel E) u n → n ∈ seen) →
  NoDup nodes0 →
  NoDup (concat ((λ c : gset string,
                    merge_sort String.le (filter (λ n, n ∈ c) nodes0))
                   <$> components_from E todo seen))
  ∧ ∀ x, x ∈ concat ((λ c : gset string,
                        merge_sort String.le (filter (λ n, n ∈ c) nodes0))
                       <$> components_from E todo seen) →
         x ∉ seen.
Proof.
  intros Hsym Hclosed Hnd. revert seen Hclosed.
  induction todo as [|v todo IH]; intros seen Hclosed.
  { simpl. split; [apply NoDup_nil_2|]. by intros x ?%elem_of_nil. }
  simpl. case_decide as Hv; [by apply IH|].
  destruct (IH (seen ∪ reach E v)) as [Hrest Hfresh].
  { intros u n [Hu|Hu%elem_of_reach]%elem_of_union Hun.
    - apply elem_of_union. left. by eapply Hclosed.
    - apply elem_of_union. right. apply elem_of_reach. by etrans. }
  rewrite fmap_cons. cbn [concat].
  assert (∀ x, x ∈ merge_sort String.le (filter (λ n, n ∈ reach E v) nodes0) →
               x ∈ reach E v) as Hhead.
  { intros x. rewrite merge_sort_Permutation. by intros [? _]%list_elem_of_filter. }
  split.
  - apply NoDup_app. split; [|split; [|done]].
    + rewrite merge_sort_Permutation. by apply NoDup_filter.
    + intros x Hx%Hhead Hx'%Hfresh. apply Hx', elem_of_union. by right.
  - intros x [Hx%Hhead|Hx%Hfresh]%elem_of_app.
    + intros Hseen. apply Hv. apply (Hclosed x); [done|].
      apply rtc_edge_rel_sym; [done|]. by apply elem_of_reach.
    + intros Hseen. apply Hx, elem_of_union. by left.
Qed.

Lemma mermaid_order_NoDup (graph : DiGraph string) :
  NoDup (nodes graph) → NoDup (mermaid_order graph).
Proof.
  intros Hnd. unfold mermaid_order, get_pipelines, weakly_connected_components.
  rewrite <- list_fmap_compose.
  apply (components_order_NoDup (edges (to_undirected graph)) (nodes graph)).
  - intros a b He. apply edge_rel_undirected. apply edge_rel_undirected in He.
    by destruct He; [right | left].
  - by intros u n []%not_elem_of_empty.
  - done.
Qed.

(** Nodes and identifiers correspond one to one: two positions of the
    declaration order carry the same identifier exactly when they carry the
    same node. *)
Lemma node_ids_identify (graph : DiGraph string) i i' x y :
  NoDup (nodes graph) →
  mermaid_order graph !! i = Some x → mermaid_order graph !! i' = Some y →
  node_id i = node_id i' ↔ x = y.
Proof.
  intros Hnd Hi Hi'. split.
  - intros ->%node_id_inj. rewrite Hi in Hi'. by injection Hi'.
  - intros ->. f_equal.
    by eapply NoDup_lookup; [apply mermaid_order_NoDup| |].
Qed.

(** ** Whole lines are decidable *)

Lemma strip_prefix_spec line text post :
  strip_prefix line text = Some post ↔ text = line +:+ post.
Proof.
  revert text. induction line as [|c line IH]; intros text; simpl.
  - split; [by intros [= ->] | by intros ->].
  - destruct text as [|c' text].
    + split; [done | by rewrite str_app_cons].
    + rewrite str_app_cons. case_decide as Hc.
      * subst c'. rewrite IH. split; [by intros -> | by intros [= ->]].
      * split; [done|]. intros [= ? _]. done.
Qed.

Lemma ends_lineb_spec post : ends_lineb post = true ↔ ends_line post.
Proof.
  unfold ends_line. destruct post as [|c post]; simpl.
  - split; [by left | done].
  - rewrite bool_decide_eq_true. split.
    + intros ->. right. by exists post.
    + intros [[=]|[rest [= -> _]]]. done.
Qed.

Lemma has_lineb_spec text line : has_lineb text line = true ↔ has_line text line.
Proof.
  split.
  - induction text as [|c text IH]; simpl; intros Hb;
      apply orb_true_iff in Hb as [Hb|Hb].
    + destruct (strip_prefix line "") as [post|] eqn:Hpost; [|done].
      apply strip_prefix_spec in Hpost. apply ends_lineb_spec in Hb.
      by exists "", post.
    + done.
    + destruct (strip_prefix line (String c text)) as [post|] eqn:Hpost; [|done].
      apply strip_prefix_spec in Hpost. apply ends_lineb_spec in Hb.
      by exists "", post.
    + destruct (IH Hb) as (pre & post & -> & Hpost).
      by exists (String c pre), post.
  - intros (pre & post & -> & Hpost). induction pre as [|c pre IH].
    + assert (strip_prefix line ("" +:+ line +:+ post) = Some post) as Hs.
      { by apply strip_prefix_spec. }
      apply ends_lineb_spec in Hpost.
      destruct ("" +:+ line +:+ post); simpl; rewrite Hs, Hpost; done.
    + rewrite str_app_cons. simpl. rewrite IH. apply orb_true_r.
Qed.

(** The anchoring at work on the star: [n01] and [n02], declared first and
    second, are joined by no edge, and the text has no line with the arrow
    from [node2] to [node1], although the arrow from [node2] to [node10]
    begins with these characters. *)
Example star_non_edge_not_drawn :
  mermaid_order star_graph !! 0 = Some "n01"
  ∧ mermaid_order star_graph !! 1 = Some "n02"
  ∧ ∃ text, _show_mermaid star_graph false = Ok text
      ∧ contains text (arrow_line (node_id 1) (node_id 0))
      ∧ ¬ has_line text (arrow_line (node_id 1) (node_id 0))
      ∧ has_line text (arrow_line (node_id 1) (node_id 9)).
Proof.
  split; [reflexivity|]. split; [reflexivity|].
  eexists. split; [vm_compute; reflexivity|].
  match goal with
  | |- _ ∧ _ ∧ has_line ?text _ =>
      assert (has_line text (arrow_line (node_id 1) (node_id 9))) as Hten
  end.
  { apply has_lineb_spec. vm_compute. reflexivity. }
  split; [|split; [|done]].
  - destruct Hten as (pre & post & Heq & _). exists pre, ("0" +:+ post).
    rewrite Heq. f_equal.
  - intros Hline%has_lineb_spec. vm_compute in Hline. discriminate.
Qed.

(** ** Claim on the renderers *)

(** C6.  For every label graph (its labels distinct) and every edge from
    [a] to [b] in it ([a] depends on [b]), both renderers express the
    relation as [b] before [a].  The dot renderer hands the writer the
    edge-reversed graph, which holds the edge from the quoted [b] to the
    quoted [a].  The flowchart text declares [a] and [b], each on a whole
    line, under the identifiers of their positions in the declaration
    order, and holds, as a whole line, the arrow from the identifier of [b]
    to the identifier of [a]; two positions carry the same identifier
    exactly when they carry the same node. *)
Theorem render_edge_reversed (graph : DiGraph string) (a b : string)
    (markdown : bool) :
  wf_graph graph → labelled graph → NoDup (nodes graph) →
  (a, b) ∈ edges graph →
  (∃ graph',
     (∀ write_dot,
        _show_dot write_dot graph = (graph', Ok (write_dot (reverse graph'))))
     ∧ (quoted b, quoted a) ∈ edges (reverse graph'))
  ∧ (∃ text i j,
       _show_mermaid graph markdown = Ok text
       ∧ mermaid_order graph !! i = Some a
       ∧ mermaid_order graph !! j = Some b
       ∧ has_line text (node_line (node_id i) a)
       ∧ has_line text (node_line (node_id j) b)
       ∧ has_line text (arrow_line (node_id j) (node_id i)))
  ∧ (∀ k k' x y,
       mermaid_order graph !! k = Some x → mermaid_order graph !! k' = Some y →
       node_id k = node_id k' ↔ x = y).
Proof.
  intros Hwf Hlab Hnd Hab. split; [|split].
  - destruct (show_dot_spec graph Hwf Hlab) as (graph' & Hshow & _ & He).
    exists graph'. split; [done|]. unfold reverse. simpl.
    apply list_elem_of_fmap. exists (quoted a, quoted b). split; [done|].
    apply He. by exists (a, b).
  - destruct (show_mermaid_lines graph markdown Hwf Hnd)
      as (text & Htext & Hdecl & Harrow).
    destruct (Harrow a b Hab) as (i & j & Hi & Hj & Hline).
    exists text, i, j. split; [done|]. split; [done|]. split; [done|].
    split; [by apply Hdecl|]. split; [by apply Hdecl | done].
  - intros k k' x y. by apply node_ids_identify.
Qed.

Lemma render_edge_reversed_witness :
  (∃ graph',
     (∀ write_dot,
        _show_dot write_dot (mkDiGraph ["A"; "B"] [("A", "B")])
        = (graph', Ok (write_dot (reverse graph'))))
     ∧ (quoted "B", quoted "A") ∈ edges (reverse graph'))
  ∧ (∃ text i j,
       _show_mermaid (mkDiGraph ["A"; "B"] [("A", "B")]) false = Ok text
       ∧ mermaid_order (mkDiGraph ["A"; "B"] [("A", "B")]) !! i = Some "A"
       ∧ mermaid_order (mkDiGraph ["A"; "B"] [("A", "B")]) !! j = Some "B"
       ∧ has_line text (node_line (node_id i) "A")
       ∧ has_line text (node_line (node_id j) "B")
       ∧ has_line text (arrow_line (node_id j) (node_id i)))
  ∧ (∀ k k' x y,
       mermaid_order (mkDiGraph ["A"; "B"] [("A", "B")]) !! k = Some x →
       mermaid_order (mkDiGraph ["A"; "B"] [("A", "B")]) !! k' = Some y →
       node_id k = node_id k' ↔ x = y).
Proof.
  apply (render_edge_reversed (mkDiGraph ["A"; "B"] [("A", "B")]) "A" "B" false).
  - compute_done.
  - compute_done.
  - compute_done.
  - compute_done.
Defined.

(** * Further properties of the module *)

(** ** The collapsed graph, node by node and edge by edge *)

(** The collapse returns exactly on the graphs that have a node. *)
Theorem collapse_graph_returns_iff (graph : DiGraph string) :
  (∃ graph', _collapse_graph graph = Ok graph') ↔ nodes graph ≠ [].
Proof.
  split.
  - intros [graph' Hrun] Hnil. unfold _collapse_graph in Hrun.
    by rewrite collapse_get_nodes_empty in Hrun.
  - intros Hne. destruct (last_is_Some _ Hne) as (x & Hx & _).
    rewrite (collapse_graph_last _ _ Hx). by eexists.
Qed.

Lemma collapse_graph_returns_iff_witness :
  (∃ graph', _collapse_graph (mkDiGraph ["a@1"] []) = Ok graph')
  ↔ nodes (mkDiGraph ["a@1"] [] : DiGraph string) ≠ [].
Proof. apply (collapse_graph_returns_iff (mkDiGraph ["a@1"] [])). Defined.

Lemma collapse_edges_char (graph graph' : DiGraph string) (e' : string * string) :
  _collapse_graph graph = Ok graph' →
  e' ∈ edges graph'
  ↔ ∃ e, e ∈ edges graph ∧ e' = (group_key e.1, group_key e.2).
Proof.
  destruct (decide (nodes graph = [])) as [Hnil|Hne].
  { unfold _collapse_graph. by rewrite collapse_get_nodes_empty. }
  destruct (last_is_Some _ Hne) as (x & Hx & _).
  rewrite (collapse_graph_last _ _ Hx). intros [= <-].
  rewrite elem_of_edges_remove_nodes_from, elem_of_edges_add_edges_from,
    edges_add_nodes_from, elem_of_edges_remove_edges_from.
  rewrite !elem_of_elements, !elem_of_list_to_set, !list_elem_of_filter,
    list_elem_of_fmap.
  setoid_rewrite list_elem_of_filter.
  split.
  - intros [[[He Hnt]|(e & -> & _ & He)] _].
    + exists e'. split; [done|]. destruct e' as [u v]. simpl.
      rewrite !group_key_id; [done|..].
      * intros Hv. apply Hnt. split; [by right | done].
      * intros Hu. apply Hnt. split; [by left | done].
    + by exists e.
  - intros (e & He & ->). split.
    + destruct (decide (touched e)) as [Ht|Ht].
      * right. by exists e.
      * left. destruct e as [u v]. simpl.
        rewrite !group_key_id; [|intros ?; apply Ht; by right
                                 |intros ?; apply Ht; by left].
        split; [done|]. by intros [? _].
    + simpl. split; intros [Hat _]; by eapply group_key_no_at.
Qed.

(** The edges of the collapsed graph are the edges of the input with the
    group key in place of each end, and nothing else. *)
Theorem collapse_graph_edges (graph graph' : DiGraph string) (e' : string * string) :
  _collapse_graph graph = Ok graph' →
  e' ∈ edges graph'
  ↔ ∃ e, e ∈ edges graph ∧ e' = (group_key e.1, group_key e.2).
Proof. intros Hrun. by apply collapse_edges_char. Qed.

Lemma collapse_graph_edges_witness :
  ("train", "prep")
    ∈ edges (mkDiGraph ["prep"; "train"] [("train", "prep")] : DiGraph string)
  ↔ ∃ e, e ∈ edges (mkDiGraph ["prep"; "train@1"] [("train@1", "prep")])
       ∧ ("train", "prep") = (group_key e.1, group_key e.2).
Proof.
  apply (collapse_graph_edges (mkDiGraph ["prep"; "train@1"] [("train@1", "prep")])
           (mkDiGraph ["prep"; "train"] [("train", "prep")])).
  vm_compute. reflexivity.
Defined.

(** The nodes of the collapsed graph are the labels without separator
    among: the nodes of the input, the group key of the node iterated last,
    and the group keys at the ends of the rewritten edges. *)
Theorem collapse_graph_nodes (graph graph' : DiGraph string) (x n : string) :
  last (nodes graph) = Some x →
  _collapse_graph graph = Ok graph' →
  n ∈ nodes graph'
  ↔ ¬ has_at n
    ∧ (n ∈ nodes graph ∨ n = group_key x
       ∨ ∃ e, e ∈ edges graph ∧ touched e
           ∧ (n = group_key e.1 ∨ n = group_key e.2)).
Proof.
  intros Hx. rewrite (collapse_graph_last _ _ Hx). intros [= <-].
  rewrite elem_of_nodes_remove_nodes_from, elem_of_nodes_add_edges_from,
    elem_of_nodes_add_nodes_from, nodes_remove_edges_from.
  rewrite !elem_of_elements, elem_of_list_to_set, list_elem_of_filter,
    elem_of_singleton.
  setoid_rewrite elem_of_elements. setoid_rewrite elem_of_list_to_set.
  setoid_rewrite list_elem_of_fmap. setoid_rewrite list_elem_of_filter.
  split.
  - intros [[[Hn|Hn]|(e' & (e & -> & Ht & He) & Hn)] Hrm].
    + split; [|by left]. intros Hat. by apply Hrm.
    + split; [subst; apply group_key_no_at | right; by left].
    + split.
      * destruct Hn as [-> | ->]; apply group_key_no_at.
      * right. right. by exists e.
  - intros [Hat [Hn|[Hn|(e & He & Ht & Hn)]]].
    + split; [by left; left | by intros [? _]].
    + split; [by left; right | by intros [? _]].
    + split; [|by intros [? _]]. right.
      exists (collapsed e). split; [by exists e | done].
Qed.

Lemma collapse_graph_nodes_witness :
  "train" ∈ nodes (mkDiGraph ["prep"; "train"] [("train", "prep")] : DiGraph string)
  ↔ ¬ has_at "train"
    ∧ ("train" ∈ nodes (mkDiGraph ["prep"; "train@1"] [("train@1", "prep")])
       ∨ "train" = group_key "train@1"
       ∨ ∃ e, e ∈ edges (mkDiGraph ["prep"; "train@1"] [("train@1", "prep")])
           ∧ touched e
           ∧ ("train" = group_key e.1 ∨ "train" = group_key e.2)).
Proof.
  apply (collapse_graph_nodes (mkDiGraph ["prep"; "train@1"] [("train@1", "prep")])
           (mkDiGraph ["prep"; "train"] [("train", "prep")]) "train@1" "train").
  - reflexivity.
  - vm_compute. reflexivity.
Defined.

(** ** The graph updates keep every edge between two nodes *)

Section wf_facts.
Context {A : Type} `{EqDecision A}.
Implicit Types (g : DiGraph A).

Lemma wf_intro g :
  (∀ u v, (u, v) ∈ edges g → u ∈ nodes g ∧ v ∈ nodes g) → wf_graph g.
Proof. intros Hg. apply Forall_forall. intros [u v] He. by apply Hg. Qed.

Lemma wf_ends g u v : wf_graph g → (u, v) ∈ edges g → u ∈ nodes g ∧ v ∈ nodes g.
Proof. intros Hwf He. split; [by eapply wf_src | by eapply wf_dst]. Qed.

Lemma remove_edges_from_wf g es : wf_graph g → wf_graph (remove_edges_from g es).
Proof.
  intros Hwf. apply wf_intro. intros u v [He _]%elem_of_edges_remove_edges_from.
  rewrite nodes_remove_edges_from. by apply wf_ends.
Qed.

Lemma add_nodes_from_wf g ns : wf_graph g → wf_graph (add_nodes_from g ns).
Proof.
  intros Hwf. apply wf_intro. intros u v. rewrite edges_add_nodes_from.
  intros [Hu Hv]%(wf_ends _ _ _ Hwf).
  rewrite !elem_of_nodes_add_nodes_from. by split; left.
Qed.

Lemma add_edges_from_wf g es : wf_graph g → wf_graph (add_edges_from g es).
Proof.
  intros Hwf. apply wf_intro. intros u v.
  rewrite elem_of_edges_add_edges_from, !elem_of_nodes_add_edges_from.
  intros [[Hu Hv]%(wf_ends _ _ _ Hwf)|He].
  - by split; left.
  - split; right; exists (u, v); (split; [done|]); [by left | by right].
Qed.

Lemma remove_nodes_from_wf g ns : wf_graph g → wf_graph (remove_nodes_from g ns).
Proof.
  intros Hwf. apply wf_intro. intros u v.
  rewrite elem_of_edges_remove_nodes_from, !elem_of_nodes_remove_nodes_from.
  simpl. intros ([Hu Hv]%(wf_ends _ _ _ Hwf) & ? & ?). done.
Qed.
End wf_facts.

(** The collapse keeps every edge between two nodes of the graph. *)
Theorem collapse_graph_wf (graph graph' : DiGraph string) :
  wf_graph graph → _collapse_graph graph = Ok graph' → wf_graph graph'.
Proof.
  intros Hwf.
  destruct (decide (nodes graph = [])) as [Hnil|Hne].
  { unfold _collapse_graph. by rewrite collapse_get_nodes_empty. }
  destruct (last_is_Some _ Hne) as (x & Hx & _).
  rewrite (collapse_graph_last _ _ Hx). intros [= <-].
  by apply remove_nodes_from_wf, add_edges_from_wf, add_nodes_from_wf,
    remove_edges_from_wf.
Qed.

Lemma collapse_graph_wf_witness :
  wf_graph (mkDiGraph ["prep"; "train"] [("train", "prep")] : DiGraph string).
Proof.
  apply (collapse_graph_wf (mkDiGraph ["prep"; "train@1"] [("train@1", "prep")])).
  - compute_done.
  - vm_compute. reflexivity.
Defined.

(** Collapsing twice is collapsing once: the graph that the collapse
    returns is returned as it is by a second collapse. *)
Theorem collapse_graph_idempotent (graph graph' : DiGraph string) :
  wf_graph graph → _collapse_graph graph = Ok graph' →
  _collapse_graph graph' = Ok graph'.
Proof.
  intros Hwf Hrun. apply collapse_graph_no_at_id.
  - destruct (decide (nodes graph = [])) as [Hnil|Hne].
    { unfold _collapse_graph in Hrun.
      by rewrite collapse_get_nodes_empty in Hrun. }
    destruct (last_is_Some _ Hne) as (x & Hx & _).
    rewrite (collapse_graph_last _ _ Hx) in Hrun. injection Hrun as <-.
    by apply remove_nodes_from_wf, add_edges_from_wf, add_nodes_from_wf,
      remove_edges_from_wf.
  - destruct (decide (nodes graph = [])) as [Hnil|Hne].
    { unfold _collapse_graph in Hrun.
      by rewrite collapse_get_nodes_empty in Hrun. }
    destruct (last_is_Some _ Hne) as (x & Hx & _).
    rewrite (collapse_graph_last _ _ Hx) in Hrun. injection Hrun as <-.
    intros Hnil.
    assert (group_key x ∈ nodes
              (remove_nodes_from
                 (add_edges_from
                    (add_nodes_from
                       (remove_edges_from graph
                          (elements (list_to_set (filter touched (edges graph))
                                       : gset (string * string))))
                       (elements ({[group_key x]} : gset string)))
                    (elements (list_to_set (collapsed <$> filter touched (edges graph))
                                 : gset (string * string))))
                 (elements (list_to_set (filter has_at (nodes graph))
                              : gset string)))) as Hin.
    { apply elem_of_nodes_remove_nodes_from. split.
      - apply elem_of_nodes_add_edges_from. left.
        apply elem_of_nodes_add_nodes_from. right.
        apply elem_of_elements. by apply elem_of_singleton.
      - rewrite elem_of_elements, elem_of_list_to_set, list_elem_of_filter.
        intros [Hat _]. by apply (group_key_no_at x). }
    rewrite Hnil in Hin. by apply elem_of_nil in Hin.
  - intros n Hn. by eapply collapse_graph_no_at.
Qed.

Lemma collapse_graph_idempotent_witness :
  _collapse_graph (mkDiGraph ["prep"; "train"] [("train", "prep")])
  = Ok (mkDiGraph ["prep"; "train"] [("train", "prep")]).
Proof.
  apply (collapse_graph_idempotent
           (mkDiGraph ["prep"; "train@1"] [("train@1", "prep")])).
  - compute_done.
  - vm_compute. reflexivity.
Defined.

(** After the collapse no label holds the separator, neither a node nor an
    end of an edge. *)
Theorem collapse_graph_separator_free (graph graph' : DiGraph string) :
  _collapse_graph graph = Ok graph' →
  (∀ n, n ∈ nodes graph' → ¬ has_at n)
  ∧ (∀ u v, (u, v) ∈ edges graph' → ¬ has_at u ∧ ¬ has_at v).
Proof.
  intros Hrun. split.
  - intros n Hn. by eapply collapse_graph_no_at.
  - intros u v (e & _ & [= -> ->])%(collapse_edges_char _ _ _ Hrun).
    split; apply group_key_no_at.
Qed.

Lemma collapse_graph_separator_free_witness :
  (∀ n, n ∈ nodes (mkDiGraph ["prep"; "train"] [("train", "prep")] : DiGraph string)
        → ¬ has_at n)
  ∧ (∀ u v, (u, v) ∈ edges (mkDiGraph ["prep"; "train"] [("train", "prep")])
            → ¬ has_at u ∧ ¬ has_at v).
Proof.
  apply (collapse_graph_separator_free
           (mkDiGraph ["prep"; "train@1"] [("train@1", "prep")])).
  vm_compute. reflexivity.
Defined.

(** ** Quoting and the dot renderer, errors and repetition *)

Lemma quoted_nonempty s : s ≠ "" → quoted s ≠ "".
Proof.
  intros Hs. destruct (quoted_cases s) as [-> | ->]; [done|].
  by destruct s.
Qed.

(** [_quote_label] returns a label exactly when the node has a character;
    on the empty label it raises IndexError. *)
Theorem quote_label_returns_iff (s : string) :
  ((∃ q, _quote_label s = Ok q) ↔ s ≠ "")
  ∧ (s = "" → _quote_label s = Raise IndexError).
Proof.
  split; [split|].
  - intros [q Hq] ->. discriminate Hq.
  - intros Hs. exists (quoted s). by apply quote_label_nonempty.
  - by intros ->.
Qed.

(** Quoting is idempotent: a label that [_quote_label] returned is
    returned as it is. *)
Theorem quote_label_idempotent (s q : string) :
  _quote_label s = Ok q → _quote_label q = Ok q.
Proof.
  intros Hq. destruct (decide (s = "")) as [->|Hs]; [discriminate Hq|].
  rewrite (quote_label_nonempty s Hs) in Hq. injection Hq as <-.
  rewrite (quote_label_nonempty (quoted s)) by by apply quoted_nonempty.
  by rewrite quoted_idem.
Qed.

Lemma quote_label_idempotent_witness :
  _quote_label (dq +:+ "a:b" +:+ dq) = Ok (dq +:+ "a:b" +:+ dq).
Proof. apply (quote_label_idempotent "a:b"). reflexivity. Defined.

Lemma relabel_collect_raises (l : list string) acc :
  "" ∈ l →
  for_each (λ m n, new ← _quote_label n; Ok (m ++ [(n, new)])) l acc
  = Raise IndexError.
Proof.
  revert acc. induction l as [|n l IH]; intros acc Hin.
  { by apply elem_of_nil in Hin. }
  destruct n as [|c n]; [done|].
  apply elem_of_cons in Hin as [[=]|Hin]. cbn [for_each].
  rewrite (quote_label_nonempty (String c n)) by done. simpl.
  by apply IH.
Qed.

(** When a node has the empty label, [_show_dot] raises IndexError before
    it renames anything: the caller's graph is as it was. *)
Theorem show_dot_empty_label (write_dot : DiGraph string → string)
    (graph : DiGraph string) :
  "" ∈ nodes graph →
  _show_dot write_dot graph = (graph, Raise IndexError).
Proof.
  intros Hin. unfold _show_dot, relabel_nodes_inplace.
  by rewrite relabel_collect_raises.
Qed.

Lemma show_dot_empty_label_witness :
  _show_dot (λ _, "") (mkDiGraph ["a"; ""] [("a", "")])
  = (mkDiGraph ["a"; ""] [("a", "")], Raise IndexError).
Proof.
  apply (show_dot_empty_label (λ _, "") (mkDiGraph ["a"; ""] [("a", "")])).
  compute_done.
Defined.

Section relabel_fixed.
Context {A : Type} `{EqDecision A}.

Lemma relabel_step_same (G : DiGraph A) n : relabel_step G n n = G.
Proof.
  unfold relabel_step. case_decide as Hn; [|done].
  rewrite decide_True by done. unfold add_node. by rewrite decide_True.
Qed.

(** Relabelling in place with a mapping that fixes every node changes
    nothing. *)
Lemma relabel_nodes_inplace_fixed (mapping : A → result A) (G : DiGraph A) :
  (∀ n, n ∈ nodes G → mapping n = Ok n) →
  relabel_nodes_inplace G mapping = Ok G.
Proof.
  intros Hfix. unfold relabel_nodes_inplace.
  rewrite (relabel_collect id _ _ _ Hfix). simpl. f_equal.
  generalize (nodes G). intros l. induction l as [|n l IH]; [done|].
  rewrite fmap_cons. cbn [foldl]. by rewrite relabel_step_same.
Qed.
End relabel_fixed.

(** Rendering twice: after a first call of [_show_dot] a second call on the
    same graph object leaves it as it is and writes the same text. *)
Theorem show_dot_twice (write_dot : DiGraph string → string)
    (graph : DiGraph string) :
  wf_graph graph → labelled graph →
  _show_dot write_dot (_show_dot write_dot graph).1
  = _show_dot write_dot graph.
Proof.
  intros Hwf Hlab.
  destruct (show_dot_spec graph Hwf Hlab) as (graph' & Hshow & Hn & _).
  rewrite Hshow. simpl. unfold _show_dot.
  rewrite relabel_nodes_inplace_fixed; [done|].
  intros n (x & Hx & ->)%Hn.
  assert (x ≠ "") as Hne.
  { unfold labelled in Hlab. rewrite Forall_forall in Hlab. by apply Hlab. }
  rewrite (quote_label_nonempty (quoted x)) by by apply quoted_nonempty.
  by rewrite quoted_idem.
Qed.

Lemma show_dot_twice_witness :
  _show_dot (λ _, "")
    (_show_dot (λ _, "") (mkDiGraph ["A"; "B"] [("A", "B")])).1
  = _show_dot (λ _, "") (mkDiGraph ["A"; "B"] [("A", "B")]).
Proof.
  apply (show_dot_twice (λ _, "") (mkDiGraph ["A"; "B"] [("A", "B")])).
  - compute_done.
  - compute_done.
Defined.

(** ** The scope filter for several targets *)

Lemma descendants_loop_ok (graph : DiGraph string) targets (acc : gset string) :
  Forall (λ T, T ∈ nodes graph) targets →
  ∃ D, for_each (λ acc target,
                   d ← descendants graph target;
                   Ok ((acc ∪ d) ∪ {[target]}))
                targets acc = Ok D
    ∧ ∀ n, n ∈ D
           ↔ n ∈ acc ∨ ∃ T, T ∈ targets ∧ rtc (edge_rel (edges graph)) T n.
Proof.
  revert acc. induction targets as [|T targets IH]; intros acc Hin.
  - exists acc. split; [done|]. intros n. split; [by left|].
    intros [?|(T & []%elem_of_nil & _)]. done.
  - apply Forall_cons in Hin as [HT Hin]. cbn [for_each].
    assert (descendants graph T = Ok (reach (edges graph) T ∖ {[T]})) as ->.
    { unfold descendants. by rewrite decide_True. }
    simpl.
    destruct (IH (acc ∪ reach (edges graph) T ∖ {[T]} ∪ {[T]}) Hin)
      as (D & -> & HD).
    exists D. split; [done|]. intros n. rewrite HD.
    rewrite !elem_of_union, elem_of_difference, elem_of_singleton, elem_of_reach.
    split.
    + intros [[[?|[? _]]| ->]|(T' & ? & ?)].
      * by left.
      * right. exists T. split; [left | done].
      * right. exists T. split; [left | done].
      * right. exists T'. split; [by right | done].
    + intros [?|(T' & [->|?]%elem_of_cons & Hr)].
      * by left; left; left.
      * left. destruct (decide (n = T)); [by right | left; right; done].
      * right. by exists T'.
Qed.

Lemma descendants_loop_raises (graph : DiGraph string) targets (acc : gset string) T :
  T ∈ targets → T ∉ nodes graph →
  for_each (λ acc target,
              d ← descendants graph target;
              Ok ((acc ∪ d) ∪ {[target]}))
           targets acc = Raise NetworkXError.
Proof.
  revert acc. induction targets as [|T' targets IH]; intros acc Hin HT.
  { by apply elem_of_nil in Hin. }
  cbn [for_each]. destruct (decide (T' ∈ nodes graph)) as [HT'|HT'].
  - assert (descendants graph T' = Ok (reach (edges graph) T' ∖ {[T']})) as ->.
    { unfold descendants. by rewrite decide_True. }
    simpl. apply IH; [|done].
    apply elem_of_cons in Hin as [->|?]; done.
  - unfold descendants. by rewrite decide_False.
Qed.

Lemma connected_loop_ok (U : DiGraph string) targets (acc : gset string) :
  Forall (λ T, T ∈ nodes U) targets →
  ∃ C, for_each (λ acc target,
                   c ← node_connected_component U target;
                   Ok (acc ∪ c))
                targets acc = Ok C
    ∧ ∀ n, n ∈ C ↔ n ∈ acc ∨ ∃ T, T ∈ targets ∧ n ∈ reach (edges U) T.
Proof.
  revert acc. induction targets as [|T targets IH]; intros acc Hin.
  - exists acc. split; [done|]. intros n. split; [by left|].
    intros [?|(T & []%elem_of_nil & _)]. done.
  - apply Forall_cons in Hin as [HT Hin]. cbn [for_each].
    assert (node_connected_component U T = Ok (reach (edges U) T)) as ->.
    { unfold node_connected_component. by rewrite decide_True. }
    simpl.
    destruct (IH (acc ∪ reach (edges U) T) Hin) as (C & -> & HC).
    exists C. split; [done|]. intros n. rewrite HC, elem_of_union.
    split.
    + intros [[?|?]|(T' & ? & ?)].
      * by left.
      * right. exists T. split; [left | done].
      * right. exists T'. split; [by right | done].
    + intros [?|(T' & [->|?]%elem_of_cons & Hr)].
      * by left; left.
      * by left; right.
      * right. by exists T'.
Qed.

Lemma connected_loop_raises (U : DiGraph string) targets (acc : gset string) T :
  T ∈ targets → T ∉ nodes U →
  for_each (λ acc target,
              c ← node_connected_component U target;
              Ok (acc ∪ c))
           targets acc = Raise KeyError.
Proof.
  revert acc. induction targets as [|T' targets IH]; intros acc Hin HT.
  { by apply elem_of_nil in Hin. }
  cbn [for_each]. destruct (decide (T' ∈ nodes U)) as [HT'|HT'].
  - assert (node_connected_component U T' = Ok (reach (edges U) T')) as ->.
    { unfold node_connected_component. by rewrite decide_True. }
    simpl. apply IH; [|done].
    apply elem_of_cons in Hin as [->|?]; done.
  - unfold node_connected_component. by rewrite decide_False.
Qed.

Lemma rtsc_in_nodes (g : DiGraph string) s v :
  wf_graph g → s ∈ nodes g → rtsc (edge_rel (edges g)) s v → v ∈ nodes g.
Proof.
  intros Hwf Hs [->|(u & _ & [He|He])]%rtc_inv_r; [done|..].
  - by eapply wf_dst.
  - by eapply wf_src.
Qed.

Lemma filter_ancestors_unfold (graph : DiGraph string) targets (D : gset string) :
  targets ≠ [] →
  for_each (λ acc target,
              d ← descendants graph target;
              Ok ((acc ∪ d) ∪ {[target]}))
           targets (∅ : gset string) = Ok D →
  _filter graph targets false
  = (connected ←
       for_each (λ acc target,
                   c ← node_connected_component
                         (to_undirected
                            (remove_nodes_from graph
                               (elements (list_to_set (nodes graph) ∖ D))))
                         target;
                   Ok (acc ∪ c))
                targets (∅ : gset string);
     Ok (remove_nodes_from
           (remove_nodes_from graph (elements (list_to_set (nodes graph) ∖ D)))
           (elements
              (list_to_set
                 (nodes (remove_nodes_from graph
                           (elements (list_to_set (nodes graph) ∖ D))))
               ∖ connected)))).
Proof.
  intros Hne HD. destruct targets as [|T targets]; [done|].
  unfold _filter, copy. cbn [negb]. by rewrite HD.
Qed.

Lemma filter_full_unfold (graph : DiGraph string) targets :
  targets ≠ [] →
  _filter graph targets true
  = (connected ←
       for_each (λ acc target,
                   c ← node_connected_component (to_undirected graph) target;
                   Ok (acc ∪ c))
                targets (∅ : gset string);
     Ok (remove_nodes_from graph
           (elements (list_to_set (nodes graph) ∖ connected)))).
Proof. intros Hne. by destruct targets. Qed.

Lemma filter_missing_raises (graph : DiGraph string) targets (full : bool) T :
  T ∈ targets → T ∉ nodes graph →
  _filter graph targets full
  = Raise (if full then KeyError else NetworkXError).
Proof.
  intros Hin HT.
  assert (targets ≠ []) as Hne by (intros ->; by apply elem_of_nil in Hin).
  destruct full.
  - rewrite filter_full_unfold by done.
    by rewrite (connected_loop_raises _ _ _ T).
  - destruct targets as [|T' targets]; [done|].
    unfold _filter, copy. cbn [negb].
    by rewrite (descendants_loop_raises _ _ _ T).
Qed.

Lemma filter_ancestors_char (graph : DiGraph string) targets :
  wf_graph graph → targets ≠ [] → Forall (λ T, T ∈ nodes graph) targets →
  ∃ graph', _filter graph targets false = Ok graph'
    ∧ ∀ n, n ∈ nodes graph'
           ↔ ∃ T, T ∈ targets ∧ rtc (edge_rel (edges graph)) T n.
Proof.
  intros Hwf Hne Hin.
  destruct (descendants_loop_ok graph targets ∅ Hin) as (D & HDrun & HD).
  rewrite (filter_ancestors_unfold _ _ _ Hne HDrun).
  set (g1 := remove_nodes_from graph (elements (list_to_set (nodes graph) ∖ D))).
  assert (∀ n, n ∈ D ↔ ∃ T, T ∈ targets ∧ rtc (edge_rel (edges graph)) T n)
    as HD'.
  { intros n. rewrite HD. split; [|by right].
    by intros [[]%not_elem_of_empty|?]. }
  rewrite Forall_forall in Hin.
  assert (∀ n, n ∈ nodes g1 ↔ n ∈ D) as Hg1.
  { intros n. unfold g1. rewrite elem_of_nodes_restrict. split; [by intros [_ ?]|].
    intros Hn. split; [|done]. apply HD' in Hn as (T & HT & Hr).
    eapply rtc_in_nodes; [done | by apply Hin | done]. }
  destruct (connected_loop_ok (to_undirected g1) targets ∅) as (C & -> & HC).
  { apply Forall_forall. intros T HT. simpl. apply Hg1, HD'. by exists T. }
  simpl. eexists. split; [reflexivity|]. intros n.
  rewrite elem_of_nodes_restrict, Hg1, HD', HC. split; [by intros [? _]|].
  intros (T & HT & Hr). split; [by exists T|]. right. exists T. split; [done|].
  apply elem_of_reach_undirected, rtc_rtsc_rl.
  eapply rtc_within_reach; [|exact Hr].
  intros a b He Ha%elem_of_reach Hb%elem_of_reach.
  apply elem_of_edges_restrict; [done|]. split; [done|].
  split; apply HD'; by exists T.
Qed.

Lemma filter_full_char (graph : DiGraph string) targets :
  wf_graph graph → targets ≠ [] → Forall (λ T, T ∈ nodes graph) targets →
  ∃ graph', _filter graph targets true = Ok graph'
    ∧ ∀ n, n ∈ nodes graph'
           ↔ ∃ T, T ∈ targets ∧ rtsc (edge_rel (edges graph)) T n.
Proof.
  intros Hwf Hne Hin. rewrite filter_full_unfold by done.
  destruct (connected_loop_ok (to_undirected graph) targets ∅ Hin)
    as (C & -> & HC).
  simpl. eexists. split; [reflexivity|]. intros n.
  rewrite elem_of_nodes_restrict, HC. rewrite Forall_forall in Hin. split.
  - intros [_ [[]%not_elem_of_empty|(T & HT & Hr)]]. exists T.
    split; [done|]. by apply elem_of_reach_undirected.
  - intros (T & HT & Hr). split.
    + eapply rtsc_in_nodes; [done | by apply Hin | done].
    + right. exists T. split; [done|]. by apply elem_of_reach_undirected.
Qed.

(** With [full = false] and any number of targets, all present in the
    graph, the filter returns the nodes that some target reaches along
    dependency edges (the targets among them). *)
Theorem filter_ancestors_union (graph : DiGraph string) (targets : list string) :
  wf_graph graph → targets ≠ [] → Forall (λ T, T ∈ nodes graph) targets →
  ∃ graph', _filter graph targets false = Ok graph'
    ∧ ∀ n, n ∈ nodes graph'
           ↔ ∃ T, T ∈ targets ∧ rtc (edge_rel (edges graph)) T n.
Proof. apply filter_ancestors_char. Qed.

Lemma filter_ancestors_union_witness :
  ∃ graph',
    _filter (mkDiGraph ["A"; "B"; "C"; "D"] [("A", "B"); ("C", "D")])
            ["A"; "D"] false = Ok graph'
    ∧ ∀ n, n ∈ nodes graph'
           ↔ ∃ T, T ∈ ["A"; "D"]
                ∧ rtc (edge_rel (edges (mkDiGraph ["A"; "B"; "C"; "D"]
                                                  [("A", "B"); ("C", "D")]))) T n.
Proof.
  apply (filter_ancestors_union
           (mkDiGraph ["A"; "B"; "C"; "D"] [("A", "B"); ("C", "D")]) ["A"; "D"]).
  - compute_done.
  - discriminate.
  - compute_done.
Defined.

(** With [full = true] and any number of targets, all present in the
    graph, the filter returns the union of the undirected connected
    components of the targets. *)
Theorem filter_full_components (graph : DiGraph string) (targets : list string) :
  wf_graph graph → targets ≠ [] → Forall (λ T, T ∈ nodes graph) targets →
  ∃ graph', _filter graph targets true = Ok graph'
    ∧ ∀ n, n ∈ nodes graph'
           ↔ ∃ T, T ∈ targets ∧ rtsc (edge_rel (edges graph)) T n.
Proof. apply filter_full_char. Qed.

Lemma filter_full_components_witness :
  ∃ graph',
    _filter (mkDiGraph ["A"; "B"; "C"; "D"] [("A", "B"); ("C", "D")])
            ["B"] true = Ok graph'
    ∧ ∀ n, n ∈ nodes graph'
           ↔ ∃ T, T ∈ ["B"]
                ∧ rtsc (edge_rel (edges (mkDiGraph ["A"; "B"; "C"; "D"]
                                                   [("A", "B"); ("C", "D")]))) T n.
Proof.
  apply (filter_full_components
           (mkDiGraph ["A"; "B"; "C"; "D"] [("A", "B"); ("C", "D")]) ["B"]).
  - compute_done.
  - discriminate.
  - compute_done.
Defined.

(** A target that is not a node of the graph makes the filter raise:
    NetworkXError from the descendants search when [full] is false, KeyError
    from the component search when it is true. *)
Theorem filter_missing_target (graph : DiGraph string) (targets : list string)
    (full : bool) (T : string) :
  T ∈ targets → T ∉ nodes graph →
  _filter graph targets full
  = Raise (if full then KeyError else NetworkXError).
Proof. apply filter_missing_raises. Qed.

Lemma filter_missing_target_witness :
  _filter (mkDiGraph ["A"; "B"] [("A", "B")]) ["A"; "Z"] false
  = Raise NetworkXError.
Proof.
  apply (filter_missing_target (mkDiGraph ["A"; "B"] [("A", "B")])
           ["A"; "Z"] false "Z").
  - compute_done.
  - compute_done.
Defined.

(** ** The filtered graph is an induced subgraph, and filtering again
    changes nothing *)

Lemma restrict_induced (g : DiGraph string) (D : gset string) :
  wf_graph g →
  wf_graph (remove_nodes_from g (elements (list_to_set (nodes g) ∖ D)))
  ∧ (∀ n, n ∈ nodes (remove_nodes_from g (elements (list_to_set (nodes g) ∖ D)))
          → n ∈ nodes g)
  ∧ (∀ u v,
       (u, v) ∈ edges (remove_nodes_from g (elements (list_to_set (nodes g) ∖ D)))
       ↔ (u, v) ∈ edges g
         ∧ u ∈ nodes (remove_nodes_from g (elements (list_to_set (nodes g) ∖ D)))
         ∧ v ∈ nodes (remove_nodes_from g (elements (list_to_set (nodes g) ∖ D)))).
Proof.
  intros Hwf. split; [by apply remove_nodes_from_wf|]. split.
  - by intros n [? _]%elem_of_nodes_restrict.
  - intros u v. rewrite elem_of_edges_restrict, !elem_of_nodes_restrict by done.
    split.
    + intros (He & Hu & Hv). destruct (wf_ends _ _ _ Hwf He). done.
    + intros (He & [_ Hu] & [_ Hv]). done.
Qed.

Lemma restrict_all (g : DiGraph string) (D : gset string) :
  (∀ n, n ∈ nodes g → n ∈ D) →
  remove_nodes_from g (elements (list_to_set (nodes g) ∖ D)) = g.
Proof.
  intros Hall.
  assert (list_to_set (nodes g) ∖ D = (∅ : gset string)) as ->.
  { apply elem_of_equiv_empty_L.
    intros n [Hn%elem_of_list_to_set Hnot]%elem_of_difference.
    by apply Hnot, Hall. }
  by rewrite elements_empty.
Qed.

(** When the filter returns, every target was a node of the graph. *)
Lemma filter_returns_targets (graph graph' : DiGraph string) targets full :
  _filter graph targets full = Ok graph' → targets ≠ [] →
  Forall (λ T, T ∈ nodes graph) targets.
Proof.
  intros Hrun Hne.
  destruct (decide (Forall (λ T, T ∈ nodes graph) targets)) as [?|Hnot];
    [done|].
  apply not_Forall_Exists in Hnot; [|apply _].
  apply Exists_exists in Hnot as (T & HT & Hnot).
  by rewrite (filter_missing_raises _ _ _ T HT Hnot) in Hrun.
Qed.

Lemma filter_induced_char (graph graph' : DiGraph string) targets full :
  wf_graph graph → _filter graph targets full = Ok graph' →
  wf_graph graph'
  ∧ (∀ n, n ∈ nodes graph' → n ∈ nodes graph)
  ∧ (∀ u v, (u, v) ∈ edges graph'
            ↔ (u, v) ∈ edges graph ∧ u ∈ nodes graph' ∧ v ∈ nodes graph').
Proof.
  intros Hwf Hrun. destruct (decide (targets = [])) as [->|Hne].
  { injection Hrun as <-. split; [done|]. split; [done|].
    intros u v. split; [|by intros [? _]].
    intros He. destruct (wf_ends _ _ _ Hwf He). done. }
  pose proof (filter_returns_targets _ _ _ _ Hrun Hne) as Hin.
  destruct full.
  - rewrite filter_full_unfold in Hrun by done.
    destruct (connected_loop_ok (to_undirected graph) targets ∅ Hin)
      as (C & HC & _).
    rewrite HC in Hrun. injection Hrun as <-. by apply restrict_induced.
  - destruct (descendants_loop_ok graph targets ∅ Hin) as (D & HDrun & HD).
    rewrite (filter_ancestors_unfold _ _ _ Hne HDrun) in Hrun.
    destruct (restrict_induced graph D Hwf) as (Hwf1 & Hn1 & He1).
    set (g1 := remove_nodes_from graph (elements (list_to_set (nodes graph) ∖ D)))
      in *.
    destruct (for_each _ targets (∅ : gset string)) as [C|]; [|done].
    injection Hrun as <-.
    destruct (restrict_induced g1 C Hwf1) as (Hwf2 & Hn2 & He2).
    split; [done|]. split; [by intros n ?%Hn2%Hn1|].
    intros u v. rewrite He2, He1. split.
    + by intros ((? & _ & _) & ? & ?).
    + intros (? & Hu & Hv). split; [|done]. split; [done|].
      split; by apply Hn2.
Qed.

(** Whenever the filter returns, the graph returned is the subgraph of the
    input induced by the nodes it keeps: no new node, and exactly the edges
    of the input between two kept nodes. *)
Theorem filter_induced_subgraph (graph graph' : DiGraph string)
    (targets : list string) (full : bool) :
  wf_graph graph → _filter graph targets full = Ok graph' →
  (∀ n, n ∈ nodes graph' → n ∈ nodes graph)
  ∧ (∀ u v, (u, v) ∈ edges graph'
            ↔ (u, v) ∈ edges graph ∧ u ∈ nodes graph' ∧ v ∈ nodes graph').
Proof. intros Hwf Hrun. by eapply filter_induced_char. Qed.

Lemma filter_induced_subgraph_witness :
  (∀ n, n ∈ nodes (mkDiGraph ["B"; "C"] [("B", "C")] : DiGraph string)
        → n ∈ nodes (mkDiGraph ["A"; "B"; "C"] [("A", "B"); ("B", "C")]))
  ∧ (∀ u v, (u, v) ∈ edges (mkDiGraph ["B"; "C"] [("B", "C")] : DiGraph string)
            ↔ (u, v) ∈ edges (mkDiGraph ["A"; "B"; "C"] [("A", "B"); ("B", "C")])
              ∧ u ∈ nodes (mkDiGraph ["B"; "C"] [("B", "C")] : DiGraph string)
              ∧ v ∈ nodes (mkDiGraph ["B"; "C"] [("B", "C")] : DiGraph string)).
Proof.
  apply (filter_induced_subgraph
           (mkDiGraph ["A"; "B"; "C"] [("A", "B"); ("B", "C")])
           (mkDiGraph ["B"; "C"] [("B", "C")]) ["B"] false).
  - compute_done.
  - vm_compute. reflexivity.
Defined.

(** Filtering is idempotent: the graph that the filter returns for some
    targets is returned as it is when it is filtered again for the same
    targets and the same [full]. *)
Theorem filter_idempotent (graph graph' : DiGraph string)
    (targets : list string) (full : bool) :
  wf_graph graph → _filter graph targets full = Ok graph' →
  _filter graph' targets full = Ok graph'.
Proof.
  intros Hwf Hrun. destruct (decide (targets = [])) as [->|Hne]; [done|].
  pose proof (filter_returns_targets _ _ _ _ Hrun Hne) as Hin.
  destruct (filter_induced_char _ _ _ _ Hwf Hrun) as (Hwf' & _ & Hedges).
  destruct full.
  - destruct (filter_full_char graph targets Hwf Hne Hin) as (g & Hg & Hnodes).
    rewrite Hrun in Hg. injection Hg as <-.
    assert (Forall (λ T, T ∈ nodes graph') targets) as Hin'.
    { apply Forall_forall. intros T HT. apply Hnodes. by exists T. }
    rewrite filter_full_unfold by done.
    destruct (connected_loop_ok (to_undirected graph') targets ∅ Hin')
      as (C & -> & HC).
    simpl. f_equal. apply restrict_all. intros n (T & HT & Hr)%Hnodes.
    apply HC. right. exists T. split; [done|].
    apply elem_of_reach. apply elem_of_reach_undirected, elem_of_reach in Hr.
    eapply rtc_within_reach; [|exact Hr].
    intros a b He Ha%elem_of_reach_undirected Hb%elem_of_reach_undirected.
    assert (a ∈ nodes graph') by (apply Hnodes; by exists T).
    assert (b ∈ nodes graph') by (apply Hnodes; by exists T).
    apply edge_rel_undirected. apply edge_rel_undirected in He as [He|He].
    + left. by apply Hedges.
    + right. by apply Hedges.
  - destruct (filter_ancestors_char graph targets Hwf Hne Hin)
      as (g & Hg & Hnodes).
    rewrite Hrun in Hg. injection Hg as <-.
    assert (Forall (λ T, T ∈ nodes graph') targets) as Hin'.
    { apply Forall_forall. intros T HT. apply Hnodes. by exists T. }
    assert (∀ T n, T ∈ targets → rtc (edge_rel (edges graph)) T n →
                   rtc (edge_rel (edges graph')) T n) as Hpath.
    { intros T n HT Hr. eapply rtc_within_reach; [|exact Hr].
      intros a b He Ha%elem_of_reach Hb%elem_of_reach.
      apply Hedges. split; [done|]. split; apply Hnodes; by exists T. }
    destruct (descendants_loop_ok graph' targets ∅ Hin') as (D & HDrun & HD).
    rewrite (filter_ancestors_unfold _ _ _ Hne HDrun).
    assert (remove_nodes_from graph'
              (elements (list_to_set (nodes graph') ∖ D)) = graph') as ->.
    { apply restrict_all. intros n (T & HT & Hr)%Hnodes.
      apply HD. right. exists T. split; [done | by apply Hpath]. }
    destruct (connected_loop_ok (to_undirected graph') targets ∅ Hin')
      as (C & -> & HC).
    simpl. f_equal. apply restrict_all. intros n (T & HT & Hr)%Hnodes.
    apply HC. right. exists T. split; [done|].
    apply elem_of_reach_undirected, rtc_rtsc_rl. by apply Hpath.
Qed.

Lemma filter_idempotent_witness :
  _filter (mkDiGraph ["B"; "C"] [("B", "C")]) ["B"] false
  = Ok (mkDiGraph ["B"; "C"] [("B", "C")]).
Proof.
  apply (filter_idempotent (mkDiGraph ["A"; "B"; "C"] [("A", "B"); ("B", "C")])).
  - compute_done.
  - vm_compute. reflexivity.
Defined.

(** ** Relabelling the index graph *)

Section relabel_copy_facts.
Context {A B : Type} `{EqDecision B} (f : A → B).

Lemma relabel_nodes_copy_edges (G : DiGraph A) e :
  e ∈ edges (relabel_nodes_copy G f)
  ↔ ∃ e0, e0 ∈ edges G ∧ e = (f e0.1, f e0.2).
Proof.
  unfold relabel_nodes_copy.
  rewrite elem_of_edges_add_edges_from, edges_add_nodes_from, list_elem_of_fmap.
  simpl. split.
  - intros [[]%elem_of_nil|(e0 & -> & ?)]. by exists e0.
  - intros (e0 & ? & ->). right. by exists e0.
Qed.

Lemma relabel_nodes_copy_nodes (G : DiGraph A) n :
  wf_graph G →
  n ∈ nodes (relabel_nodes_copy G f) ↔ ∃ x, x ∈ nodes G ∧ n = f x.
Proof.
  intros Hwf. unfold wf_graph in Hwf. rewrite Forall_forall in Hwf.
  unfold relabel_nodes_copy.
  rewrite elem_of_nodes_add_edges_from, elem_of_nodes_add_nodes_from,
    list_elem_of_fmap. simpl. split.
  - intros [[[]%elem_of_nil|(x & -> & ?)]|(e & (e0 & -> & He0)%list_elem_of_fmap & Hn)].
    + by exists x.
    + destruct (Hwf _ He0) as [H1 H2]. simpl in Hn.
      destruct Hn as [-> | ->]; [by exists e0.1 | by exists e0.2].
  - intros (x & ? & ->). left. right. by exists x.
Qed.

Lemma relabel_nodes_copy_wf (G : DiGraph A) : wf_graph (relabel_nodes_copy G f).
Proof.
  unfold relabel_nodes_copy. apply add_edges_from_wf, add_nodes_from_wf.
  by apply Forall_nil.
Qed.
End relabel_copy_facts.

(** [_transform] keeps the topology: the nodes of the label graph are the
    labels of the nodes of the chosen index graph (the output graph when
    [outs] is set, the stage graph otherwise) and its edges are the edges of
    that graph between the labels. *)
Theorem transform_topology (index : Index) (outs : bool) :
  wf_graph (if outs then index_outs_graph index else index_graph index) →
  (∀ n, n ∈ nodes (_transform index outs)
        ↔ ∃ x, x ∈ nodes (if outs then index_outs_graph index
                            else index_graph index)
             ∧ n = _relabel x)
  ∧ (∀ e, e ∈ edges (_transform index outs)
          ↔ ∃ e0, e0 ∈ edges (if outs then index_outs_graph index
                               else index_graph index)
               ∧ e = (_relabel e0.1, _relabel e0.2)).
Proof.
  intros Hwf. unfold _transform. split.
  - intros n. by apply relabel_nodes_copy_nodes.
  - intros e. apply relabel_nodes_copy_edges.
Qed.

Lemma transform_topology_witness :
  (∀ n, n ∈ nodes (_transform sample_index false)
        ↔ ∃ x, x ∈ nodes (index_graph sample_index) ∧ n = _relabel x)
  ∧ (∀ e, e ∈ edges (_transform sample_index false)
          ↔ ∃ e0, e0 ∈ edges (index_graph sample_index)
               ∧ e = (_relabel e0.1, _relabel e0.2)).
Proof.
  apply (transform_topology sample_index false). compute_done.
Defined.

(** ** Targets and the build *)

Lemma build_no_target (repo : Repo) (target : option string)
    (full outs collapse : bool) :
  target = None ∨ target = Some "" →
  _build repo target full outs collapse
  = if collapse then _collapse_graph (_transform (repo_index repo) outs)
    else Ok (_transform (repo_index repo) outs).
Proof. by intros [-> | ->]. Qed.

Lemma build_collect_raises (repo : Repo) (target : string) (e : exn)
    (full outs collapse : bool) :
  target ≠ "" →
  stage_collect_granular repo target = Raise e →
  _build repo (Some target) full outs collapse = Raise e.
Proof.
  intros Hne Hraise. unfold _build, _collect_targets.
  destruct target as [|c target]; [done|]. by rewrite Hraise.
Qed.

(** Without a target (none, or the empty string) the repository is not
    asked for stages and nothing is filtered: [_build] returns the whole
    label graph whatever [full] is, or its collapse when collapse is
    requested. *)
Theorem build_without_target (repo : Repo) (target : option string)
    (full outs collapse : bool) :
  target = None ∨ target = Some "" →
  _build repo target full outs collapse
  = if collapse then _collapse_graph (_transform (repo_index repo) outs)
    else Ok (_transform (repo_index repo) outs).
Proof. apply build_no_target. Qed.

Lemma build_without_target_witness :
  _build sample_repo None true false false
  = Ok (_transform (repo_index sample_repo) false).
Proof.
  apply (build_without_target sample_repo None true false false). by left.
Defined.

(** An exception of the stage collection is the exception of [_build]:
    nothing is relabelled, filtered or collapsed before. *)
Theorem build_collect_error (repo : Repo) (target : string) (e : exn)
    (full outs collapse : bool) :
  target ≠ "" →
  stage_collect_granular repo target = Raise e →
  _build repo (Some target) full outs collapse = Raise e.
Proof. apply build_collect_raises. Qed.

Lemma build_collect_error_witness :
  _build sample_repo (Some "nothing") false true true = Raise KeyError.
Proof.
  apply (build_collect_error sample_repo "nothing" KeyError false true true).
  - discriminate.
  - reflexivity.
Defined.

Lemma collect_outs_loop (repo : Repo) pairs (targets : list string) :
  Forall (λ p : Stage * option string, p.2 = None ∨ p.2 = Some "") pairs →
  for_each (λ targets '(stage, path),
      match path with
      | None | Some EmptyString =>
          Ok (targets ++ (out_str <$> stage_outs stage))
      | Some path =>
          found ← itervalues (index_outs_trie (repo_index repo))
                             (fs_parts repo path);
          Ok (foldl (λ targets out, targets ++ chars (out_str out))
                    targets found)
      end)
    pairs targets
  = Ok (targets ++ (pairs ≫= λ p, out_str <$> stage_outs p.1)).
Proof.
  revert targets. induction pairs as [|[stage path] pairs IH]; intros targets Hp.
  - simpl. by rewrite app_nil_r.
  - apply Forall_cons in Hp as [Hpath Hp]. cbn [for_each]. simpl in Hpath.
    destruct Hpath as [-> | ->]; simpl; rewrite IH by done;
      by rewrite <- app_assoc.
Qed.

(** With [outs] set and every matched pair without a path, the targets are
    the labels of all the outputs of the matched stages, stage after stage,
    each label whole. *)
Theorem collect_targets_stage_outs (repo : Repo) (target : string)
    (pairs : list (Stage * option string)) :
  target ≠ "" →
  stage_collect_granular repo target = Ok pairs →
  Forall (λ p : Stage * option string, p.2 = None ∨ p.2 = Some "") pairs →
  _collect_targets repo (Some target) true
  = Ok (pairs ≫= λ p, out_str <$> stage_outs p.1).
Proof.
  intros Hne Hpairs Hpaths. unfold _collect_targets.
  destruct target as [|c target]; [done|]. rewrite Hpairs. simpl.
  by rewrite collect_outs_loop.
Qed.

Lemma collect_targets_stage_outs_witness :
  _collect_targets sample_repo (Some "train@1") true
  = Ok ([(stage_train1, @None string)] ≫= λ p, out_str <$> stage_outs p.1).
Proof.
  apply (collect_targets_stage_outs sample_repo "train@1"
           [(stage_train1, @None string)]).
  - discriminate.
  - reflexivity.
  - apply Forall_cons. split; [by left | by apply Forall_nil].
Defined.

(** ** The flowchart renderer on whole graphs *)








(** ** The ASCII renderer and the graph without nodes *)

Lemma filter_all {A} (P : A → Prop) `{∀ x, Decision (P x)} (l : list A) :
  (∀ x, x ∈ l → P x) → filter P l = l.
Proof.
  induction l as [|x l IH]; intros Hall; [done|].
  rewrite filter_cons_True by (apply Hall; left).
  f_equal. apply IH. intros y Hy. apply Hall. by right.
Qed.

Lemma components_from_seen (E : list (string * string)) todo (seen : gset string) :
  (∀ n, n ∈ todo → n ∈ seen) → components_from E todo seen = [].
Proof.
  induction todo as [|v todo IH]; intros Hseen; [done|]. simpl.
  rewrite decide_True by (apply Hseen; left).
  apply IH. intros n Hn. apply Hseen. by right.
Qed.

(** A graph whose nodes all hang together is one pipeline: the line-drawing
    routine is called once, with all the nodes and all the edges, and its
    picture is the text. *)
Theorem show_ascii_connected
    (draw : list string → list (string * string) → string)
    (graph : DiGraph string) (v : string) :
  wf_graph graph → head (nodes graph) = Some v →
  (∀ n, n ∈ nodes graph → rtsc (edge_rel (edges graph)) v n) →
  _show_ascii draw graph = draw (nodes graph) (edges graph).
Proof.
  intros Hwf Hv Hconn. unfold _show_ascii, get_pipelines,
    weakly_connected_components.
  destruct graph as [ns es]. simpl in *. destruct ns as [|v' ns]; [done|].
  injection Hv as ->. cbn [components_from].
  rewrite decide_False by apply not_elem_of_empty.
  set (c := reach (es ++ ((λ e, (e.2, e.1)) <$> es)) v).
  assert (∀ n, n ∈ v :: ns → n ∈ c) as Hc.
  { intros n Hn. unfold c.
    change (es ++ ((λ e, (e.2, e.1)) <$> es))
      with (edges (to_undirected (mkDiGraph (v :: ns) es))).
    apply elem_of_reach_undirected. by apply Hconn. }
  rewrite components_from_seen.
  2:{ intros n Hn. apply elem_of_union. right. apply Hc. by right. }
  unfold subgraph. simpl.
  rewrite (filter_all (λ n, n ∈ c) (v :: ns)) by done.
  rewrite (filter_all (λ e, e.1 ∈ c ∧ e.2 ∈ c) es); [done|].
  intros [a b] He. destruct (wf_ends _ _ _ Hwf He). split; by apply Hc.
Qed.

Lemma show_ascii_connected_witness :
  _show_ascii (λ ns es, join "," ns)
    (mkDiGraph ["A"; "B"; "C"] [("A", "B"); ("C", "B")])
  = (λ ns es, join "," ns)
      (nodes (mkDiGraph ["A"; "B"; "C"] [("A", "B"); ("C", "B")]))
      (edges (mkDiGraph ["A"; "B"; "C"] [("A", "B"); ("C", "B")])).
Proof.
  apply (show_ascii_connected (λ ns es, join "," ns)
           (mkDiGraph ["A"; "B"; "C"] [("A", "B"); ("C", "B")]) "A").
  - compute_done.
  - reflexivity.
  - intros n Hn. apply elem_of_reach_undirected. revert n Hn.
    apply Forall_forall. compute_done.
Defined.

(** A graph without nodes is rendered, not refused: the flowchart is the
    header alone (inside the fence with markdown) and the ASCII text is
    empty, the line-drawing routine not being called. *)
Theorem render_no_nodes (draw : list string → list (string * string) → string)
    (graph : DiGraph string) :
  nodes graph = [] →
  _show_mermaid graph false = Ok "flowchart TD"
  ∧ _show_mermaid graph true
    = Ok ("```mermaid" +:+ nl +:+ "flowchart TD" +:+ nl +:+ "```")
  ∧ _show_ascii draw graph = "".
Proof.
  intros Hnil.
  assert (get_pipelines graph = []) as Hp.
  { unfold get_pipelines, weakly_connected_components. by rewrite Hnil. }
  unfold _show_mermaid, _show_ascii. rewrite Hp. done.
Qed.

Lemma render_no_nodes_witness :
  _show_mermaid empty_graph false = Ok "flowchart TD"
  ∧ _show_mermaid empty_graph true
    = Ok ("```mermaid" +:+ nl +:+ "flowchart TD" +:+ nl +:+ "```")
  ∧ _show_ascii (λ _ _, "x") empty_graph = "".
Proof. apply (render_no_nodes (λ _ _, "x") empty_graph). reflexivity. Defined.

(** ** The command *)

Lemma transform_wf (index : Index) (outs : bool) :
  wf_graph (_transform index outs).
Proof. unfold _transform. apply relabel_nodes_copy_wf. Qed.

Section nodup_facts.
Context {A : Type} `{EqDecision A}.

Lemma add_node_NoDup (g : DiGraph A) n : NoDup (nodes g) → NoDup (nodes (add_node g n)).
Proof.
  intros Hnd. unfold add_node. case_decide as Hn; [done|]. simpl.
  apply NoDup_app. split; [done|]. split; [|apply NoDup_singleton].
  by intros x Hx ->%list_elem_of_singleton.
Qed.

Lemma add_nodes_from_NoDup (g : DiGraph A) ns :
  NoDup (nodes g) → NoDup (nodes (add_nodes_from g ns)).
Proof.
  unfold add_nodes_from. revert g.
  induction ns as [|n ns IH]; intros g Hnd; [done|].
  simpl. by apply IH, add_node_NoDup.
Qed.

Lemma add_edge_NoDup (g : DiGraph A) e : NoDup (nodes g) → NoDup (nodes (add_edge g e)).
Proof.
  intros Hnd. unfold add_edge. case_decide; simpl;
    by do 2 apply add_node_NoDup.
Qed.

Lemma add_edges_from_NoDup (g : DiGraph A) es :
  NoDup (nodes g) → NoDup (nodes (add_edges_from g es)).
Proof.
  unfold add_edges_from. revert g.
  induction es as [|e es IH]; intros g Hnd; [done|].
  simpl. by apply IH, add_edge_NoDup.
Qed.
End nodup_facts.

(** The label graph never lists a label twice, whatever the index graph. *)
Lemma transform_NoDup (index : Index) (outs : bool) :
  NoDup (nodes (_transform index outs)).
Proof.
  unfold _transform, relabel_nodes_copy.
  apply add_edges_from_NoDup, add_nodes_from_NoDup. apply NoDup_nil_2.
Qed.

(** End to end, without a target and with the flowchart selected: the
    command returns 0 and writes, outside the pager, a text in which the
    labels of [a] and [b] are declared, each on a whole line, under the
    identifiers of their positions in the declaration order, and in which
    every edge of the index graph from [a] to [b] is the whole line of the
    arrow from the identifier of the label of [b] to the identifier of the
    label of [a]; two positions carry the same identifier exactly when they
    carry the same label. *)
Theorem run_flowchart_end_to_end
    (draw : list string → list (string * string) → string)
    (write_dot : DiGraph string → string) (repo : Repo) (args : Args)
    (a b : Node) :
  args_target args = None →
  args_dot args = false →
  args_mermaid args || args_markdown args = true →
  (a, b) ∈ edges (if args_outs args then index_outs_graph (repo_index repo)
                  else index_graph (repo_index repo)) →
  (∃ text i j,
     run draw write_dot repo args = Ok (Plain text, 0)
     ∧ mermaid_order (_transform (repo_index repo) (args_outs args)) !! i
       = Some (_relabel a)
     ∧ mermaid_order (_transform (repo_index repo) (args_outs args)) !! j
       = Some (_relabel b)
     ∧ has_line text (node_line (node_id i) (_relabel a))
     ∧ has_line text (node_line (node_id j) (_relabel b))
     ∧ has_line text (arrow_line (node_id j) (node_id i)))
  ∧ (∀ k k' x y,
       mermaid_order (_transform (repo_index repo) (args_outs args)) !! k
       = Some x →
       mermaid_order (_transform (repo_index repo) (args_outs args)) !! k'
       = Some y →
       node_id k = node_id k' ↔ x = y).
Proof.
  intros Htarget Hdot Hfmt Hab. split.
  - unfold run. rewrite Htarget, Hdot, Hfmt.
    rewrite (build_no_target repo None) by by left. simpl.
    destruct (show_mermaid_lines (_transform (repo_index repo) (args_outs args))
                (args_markdown args))
      as (text & -> & Hdecl & Harrow).
    { apply transform_wf. }
    { apply transform_NoDup. }
    destruct (Harrow (_relabel a) (_relabel b)) as (i & j & Hi & Hj & Hline).
    { unfold _transform. apply relabel_nodes_copy_edges. by exists (a, b). }
    exists text, i, j. split; [done|]. split; [done|]. split; [done|].
    split; [by apply Hdecl|]. split; [by apply Hdecl | done].
  - intros k k' x y. apply node_ids_identify, transform_NoDup.
Qed.

Lemma run_flowchart_end_to_end_witness :
  (∃ text i j,
     run (λ _ _, "") (λ _, "") sample_repo
         (mkArgs None false false false true false)
     = Ok (Plain text, 0)
     ∧ mermaid_order (_transform (repo_index sample_repo) false) !! i
       = Some (_relabel (NodeStage stage_eval))
     ∧ mermaid_order (_transform (repo_index sample_repo) false) !! j
       = Some (_relabel (NodeStage stage_train1))
     ∧ has_line text (node_line (node_id i) (_relabel (NodeStage stage_eval)))
     ∧ has_line text (node_line (node_id j) (_relabel (NodeStage stage_train1)))
     ∧ has_line text (arrow_line (node_id j) (node_id i)))
  ∧ (∀ k k' x y,
       mermaid_order (_transform (repo_index sample_repo) false) !! k = Some x →
       mermaid_order (_transform (repo_index sample_repo) false) !! k' = Some y →
       node_id k = node_id k' ↔ x = y).
Proof.
  apply (run_flowchart_end_to_end (λ _ _, "") (λ _, "") sample_repo
           (mkArgs None false false false true false)
           (NodeStage stage_eval) (NodeStage stage_train1)).
  - reflexivity.
  - reflexivity.
  - reflexivity.
  - compute_done.
Defined.

(** A target that the stage collection refuses ends the command with the
    exception of the collection: nothing is written and no value is
    returned, whatever the format selected. *)
Theorem run_collect_error
    (draw : list string → list (string * string) → string)
    (write_dot : DiGraph string → string) (repo : Repo) (args : Args)
    (target : string) (e : exn) :
  args_target args = Some target → target ≠ "" →
  stage_collect_granular repo target = Raise e →
  run draw write_dot repo args = Raise e.
Proof.
  intros Htarget Hne Hraise. unfold run. rewrite Htarget.
  by rewrite (build_collect_raises repo target e _ _ _ Hne Hraise).
Qed.

Lemma run_collect_error_witness :
  run (λ _ _, "") (λ _, "") sample_repo
      (mkArgs (Some "nothing") false false true false false)
  = Raise KeyError.
Proof.
  apply (run_collect_error (λ _ _, "") (λ _, "") sample_repo
           (mkArgs (Some "nothing") false false true false false)
           "nothing" KeyError).
  - reflexivity.
  - discriminate.
  - reflexivity.
Defined.

(** ** More on the scope filter *)

(** The filter never drops a target: every target is a node of the graph
    it returns. *)
Theorem filter_keeps_targets (graph graph' : DiGraph string)
    (targets : list string) (full : bool) (T : string) :
  wf_graph graph → _filter graph targets full = Ok graph' →
  T ∈ targets → T ∈ nodes graph'.
Proof.
  intros Hwf Hrun HT.
  assert (targets ≠ []) as Hne by (intros ->; by apply elem_of_nil in HT).
  pose proof (filter_returns_targets _ _ _ _ Hrun Hne) as Hin.
  destruct full.
  - destruct (filter_full_char graph targets Hwf Hne Hin) as (g & Hg & Hnodes).
    rewrite Hrun in Hg. injection Hg as <-. apply Hnodes. by exists T.
  - destruct (filter_ancestors_char graph targets Hwf Hne Hin)
      as (g & Hg & Hnodes).
    rewrite Hrun in Hg. injection Hg as <-. apply Hnodes. by exists T.
Qed.

Lemma filter_keeps_targets_witness :
  "B" ∈ nodes (mkDiGraph ["B"; "C"] [("B", "C")] : DiGraph string).
Proof.
  apply (filter_keeps_targets
           (mkDiGraph ["A"; "B"; "C"] [("A", "B"); ("B", "C")])
           (mkDiGraph ["B"; "C"] [("B", "C")]) ["B"] false "B").
  - compute_done.
  - vm_compute. reflexivity.
  - compute_done.
Defined.

(** [full] only widens the scope: when the filter returns with
    [full = false] it returns with [full = true] as well, and every node
    kept by the first is kept by the second. *)
Theorem filter_full_widens (graph graph1 : DiGraph string)
    (targets : list string) :
  wf_graph graph → _filter graph targets false = Ok graph1 →
  ∃ graph2, _filter graph targets true = Ok graph2
    ∧ ∀ n, n ∈ nodes graph1 → n ∈ nodes graph2.
Proof.
  intros Hwf Hrun. destruct (decide (targets = [])) as [->|Hne].
  { injection Hrun as <-. by exists graph. }
  pose proof (filter_returns_targets _ _ _ _ Hrun Hne) as Hin.
  destruct (filter_ancestors_char graph targets Hwf Hne Hin) as (g & Hg & Hn1).
  rewrite Hrun in Hg. injection Hg as <-.
  destruct (filter_full_char graph targets Hwf Hne Hin) as (graph2 & Hg2 & Hn2).
  exists graph2. split; [done|].
  intros n (T & HT & Hr)%Hn1. apply Hn2. exists T. split; [done|].
  by apply rtc_rtsc_rl.
Qed.

Lemma filter_full_widens_witness :
  ∃ graph2,
    _filter (mkDiGraph ["A"; "B"; "C"] [("A", "B"); ("B", "C")]) ["B"] true
    = Ok graph2
    ∧ ∀ n, n ∈ nodes (mkDiGraph ["B"; "C"] [("B", "C")] : DiGraph string)
           → n ∈ nodes graph2.
Proof.
  apply (filter_full_widens
           (mkDiGraph ["A"; "B"; "C"] [("A", "B"); ("B", "C")])
           (mkDiGraph ["B"; "C"] [("B", "C")]) ["B"]).
  - compute_done.
  - vm_compute. reflexivity.
Defined.

(** ** The two scans of the collapse *)

(** The scan of the nodes marks for removal exactly the nodes whose label
    holds the separator, and proposes one new node only: the group key of
    the node iterated last. *)
Theorem collapse_get_nodes_sets (graph : DiGraph string) (x : string) :
  last (nodes graph) = Some x →
  ∃ new_nodes nodes_to_remove,
    _collapse_get_nodes graph = Ok (new_nodes, nodes_to_remove)
    ∧ (∀ n, n ∈ new_nodes ↔ n = group_key x)
    ∧ (∀ n, n ∈ nodes_to_remove ↔ n ∈ nodes graph ∧ has_at n).
Proof.
  intros Hx. rewrite (collapse_get_nodes_last _ _ Hx).
  eexists _, _. split; [reflexivity|]. split.
  - intros n. apply elem_of_singleton.
  - intros n. rewrite elem_of_list_to_set, list_elem_of_filter. tauto.
Qed.

Lemma collapse_get_nodes_sets_witness :
  ∃ new_nodes nodes_to_remove,
    _collapse_get_nodes (mkDiGraph ["a@1"; "b@2"; "c"] [])
    = Ok (new_nodes, nodes_to_remove)
    ∧ (∀ n, n ∈ new_nodes ↔ n = group_key "c")
    ∧ (∀ n, n ∈ nodes_to_remove
            ↔ n ∈ nodes (mkDiGraph ["a@1"; "b@2"; "c"] []) ∧ has_at n).
Proof.
  apply (collapse_get_nodes_sets (mkDiGraph ["a@1"; "b@2"; "c"] []) "c").
  reflexivity.
Defined.

(** The scan of the edges never raises.  It marks for removal exactly the
    edges with the separator at an end, and proposes exactly these edges
    with the group key in place of each end. *)
Theorem collapse_get_edges_sets (graph : DiGraph string) :
  ∃ new_edges edges_to_remove,
    _collapse_get_edges graph = Ok (new_edges, edges_to_remove)
    ∧ (∀ e, e ∈ edges_to_remove
            ↔ e ∈ edges graph ∧ (has_at e.1 ∨ has_at e.2))
    ∧ (∀ e', e' ∈ new_edges
             ↔ ∃ e, e ∈ edges_to_remove
                  ∧ e' = (group_key e.1, group_key e.2)).
Proof.
  rewrite collapse_get_edges_spec. eexists _, _. split; [reflexivity|]. split.
  - intros e. rewrite elem_of_list_to_set, list_elem_of_filter.
    unfold touched. tauto.
  - intros e'. rewrite elem_of_list_to_set, list_elem_of_fmap.
    split; intros (e & H1 & H2).
    + exists e. split; [by apply elem_of_list_to_set | done].
    + exists e. split; [done | by apply elem_of_list_to_set in H1].
Qed.
